(** * The colour-fill animation of [source/main.cpp]

    A shallow embedding of the part of the program that owns state: the
    globals of [main.cpp], the four recolouring blocks of [sceneRender] and
    the colour selection of the main loop.  The EGL/OpenGL calls, the shader
    sources and the two transform matrices do not touch that state and are
    left out. *)

From Stdlib Require Import ZArith NArith List Lia.
From stdpp Require Import base numbers option list gmap sets fin_sets.

#[local] Set Warnings "-clear-no-such-hyp".

(** ** Data *)

(** A [float] is carried by its IEEE-754 binary32 bit pattern.  The program
    never computes on the colour components, it only copies them. *)
Definition float : Type := Z.

Definition f_zero : float := 0%Z.          (* 0.0f *)
Definition f_one : float := 0x3f800000%Z.  (* 1.0f *)

(** [glm::vec3]. *)
Record vec3 : Type := Vec3 { vx : float; vy : float; vz : float }.

#[global] Instance vec3_eq_dec : EqDecision vec3.
Proof. solve_decision. Defined.

(** [struct Vertex] of [include/vertex.h]. *)
Module Vertex.
Record t : Type := mk { position : vec3; color : vec3 }.

#[global] Instance eq_dec : EqDecision t.
Proof. solve_decision. Defined.
End Vertex.

(** The module-level variables of [main.cpp] the animation reads or writes.
    [sphere] is the vertex array defined in [sphere.h]; its contents are not
    fixed here, the array is whatever list the state holds and
    [sizeof(sphere) / sizeof(Vertex)] is the length of that list.  [rand_calls] is the
    number of calls made to [rand()] so far, the hidden state of libc's
    generator. *)
Record Globals : Type := mkGlobals {
  sphere : list Vertex.t;
  color : vec3;
  changed_indeces : gset Z;
  is_changing_color : bool;
  selected_color : Z;
  prev_color : Z;
  rand_calls : nat;
}.

Definition set_sphere (m : list Vertex.t) (g : Globals) : Globals :=
  mkGlobals m (color g) (changed_indeces g) (is_changing_color g)
            (selected_color g) (prev_color g) (rand_calls g).

Definition set_color (c : vec3) (g : Globals) : Globals :=
  mkGlobals (sphere g) c (changed_indeces g) (is_changing_color g)
            (selected_color g) (prev_color g) (rand_calls g).

Definition set_changed_indeces (s : gset Z) (g : Globals) : Globals :=
  mkGlobals (sphere g) (color g) s (is_changing_color g)
            (selected_color g) (prev_color g) (rand_calls g).

Definition set_is_changing_color (b : bool) (g : Globals) : Globals :=
  mkGlobals (sphere g) (color g) (changed_indeces g) b
            (selected_color g) (prev_color g) (rand_calls g).

Definition set_selected_color (c : Z) (g : Globals) : Globals :=
  mkGlobals (sphere g) (color g) (changed_indeces g) (is_changing_color g)
            c (prev_color g) (rand_calls g).

Definition set_prev_color (c : Z) (g : Globals) : Globals :=
  mkGlobals (sphere g) (color g) (changed_indeces g) (is_changing_color g)
            (selected_color g) c (rand_calls g).

Definition set_rand_calls (n : nat) (g : Globals) : Globals :=
  mkGlobals (sphere g) (color g) (changed_indeces g) (is_changing_color g)
            (selected_color g) (prev_color g) n.

(** The initialisers of the globals, over the array [sphere.h] provides. *)
Definition initial (mesh : list Vertex.t) : Globals :=
  mkGlobals mesh (Vec3 f_one f_zero f_zero) ∅ false 0 0 0.

(** ** Outcomes

    A call either returns, or is still inside a [while (true)] loop when the
    fuel given to that loop is used up, or indexes [sphere] outside its
    bounds, which C++ leaves undefined. *)
Inductive result (A : Type) : Type :=
  | Ret (a : A)
  | Spin
  | Undefined.
Arguments Ret {A} a.
Arguments Spin {A}.
Arguments Undefined {A}.

#[global] Instance result_ret : MRet result := λ A a, Ret a.
#[global] Instance result_bind : MBind result := λ A B f r,
  match r with
  | Ret a => f a
  | Spin => Spin
  | Undefined => Undefined
  end.

(** ** [sceneRender] *)

(** [sphere[i].color = c]: the position of the vertex is kept. *)
Definition store_color (m : list Vertex.t) (i : Z) (c : vec3)
  : result (list Vertex.t) :=
  if bool_decide (0 ≤ i)%Z then
    match m !! Z.to_nat i with
    | Some v => Ret (<[Z.to_nat i := Vertex.mk (Vertex.position v) c]> m)
    | None => Undefined
    end
  else Undefined.

Section Animator.

(** The values [rand()] returns, in call order.  The C standard puts them
    in [0, RAND_MAX], hence [N]. *)
Variable rand : nat → N.

(** [rand() % 240], for the call number [n]. *)
Definition rand_mod_240 (n : nat) : Z := Z.rem (Z.of_N (rand n)) 240.

(** The loop
<<
    while (true) {
        i = rand() % 240;
        if (changed_indeces.find(i) == changed_indeces.end())
            break;
    }
>>
    entered when [n] calls of [rand()] have been made.  It gives the index
    it leaves with and the number of calls made by then. *)
Fixpoint draw_loop (fuel : nat) (s : gset Z) (n : nat) : result (Z * nat) :=
  match fuel with
  | O => Spin
  | S fuel' =>
      let i := rand_mod_240 n in
      if decide (i ∈ s) then draw_loop fuel' s (S n) else Ret (i, S n)
  end.

(** [changed_indeces.size() < sizeof(sphere) / sizeof(Vertex)] *)
Definition guard (g : Globals) : bool :=
  bool_decide (size (changed_indeces g) < length (sphere g)).

(** The three statements [sphere[i].color = color;] and
    [changed_indeces.insert(i);], when the loop was left with [i] after
    [n] calls of [rand()]. *)
Definition paint (i : Z) (n : nat) (g : Globals) : result Globals :=
  m1 ← store_color (sphere g) i (color g);
  m2 ← store_color m1 i (color g);
  m3 ← store_color m2 i (color g);
  mret (set_rand_calls n
         (set_changed_indeces ({[ i ]} ∪ changed_indeces g)
           (set_sphere m3 g))).

(** The body of each of the four [if]s.  The declaration
    [int i = rand() % 240;] makes one call whose value the loop overwrites
    before any use. *)
Definition recolor (fuel : nat) (g : Globals) : result Globals :=
  '(i, n) ← draw_loop fuel (changed_indeces g) (S (rand_calls g));
  paint i n g.

(** The first three [if]s have no [else]. *)
Definition block (fuel : nat) (g : Globals) : result Globals :=
  if guard g then recolor fuel g else mret g.

(** The fourth has [else { is_changing_color = false; }]. *)
Definition last_block (fuel : nat) (g : Globals) : result Globals :=
  if guard g then recolor fuel g else mret (set_is_changing_color false g).

Definition sceneRender (fuel : nat) (g : Globals) : result Globals :=
  g1 ← block fuel g;
  g2 ← block fuel g1;
  g3 ← block fuel g2;
  last_block fuel g3.


(** [n] calls one after the other, nothing in between. *)
Fixpoint calls (n : nat) (fuel : nat) (g : Globals) : result Globals :=
  match n with
  | O => mret g
  | S n' => g' ← calls n' fuel g; sceneRender fuel g'
  end.

(** The same, each call with the fuel it needs. *)
Inductive renders : Globals → nat → Globals → Prop :=
  | renders_O g : renders g 0 g
  | renders_S g n g' fuel g'' :
      renders g n g' → sceneRender fuel g' = Ret g'' → renders g (S n) g''.

(** ** The main loop *)

(** What [padGetButtons] and [padGetButtonsDown] return in one iteration. *)
Record Pad : Type := mkPad { buttons_state : Z; keys_down : Z }.

(** [HidNpadButton] of libnx: [BIT(n)]. *)
Definition BIT (n : Z) : Z := Z.shiftl 1 n.
Definition HidNpadButton_Plus : Z := BIT 10.
Definition HidNpadButton_Minus : Z := BIT 11.
Definition HidNpadButton_Up : Z := BIT 13.
Definition HidNpadButton_Down : Z := BIT 15.
Definition HidNpadButton_StickLUp : Z := BIT 17.
Definition HidNpadButton_StickLDown : Z := BIT 19.

(** [state & mask] as a condition. *)
Definition pressed (state mask : Z) : bool :=
  negb (Z.land state mask =? 0)%Z.

(** The value the [if]/[else if]/[else] chain assigns to [selected_color]. *)
Definition chosen_color (buttons : Z) : Z :=
  if pressed buttons (Z.lor HidNpadButton_Up HidNpadButton_StickLUp) then 2
  else if pressed buttons (Z.lor HidNpadButton_Down HidNpadButton_StickLDown)
       then 1
       else 0.

(** Each branch of the chain:
<<
    selected_color = c;
    if (prev_color != selected_color) {
        is_changing_color = true;
        changed_indeces.clear();
    }
    else is_changing_color = false;
>>
*)
Definition select (c : Z) (g : Globals) : Globals :=
  let g1 := set_selected_color c g in
  if bool_decide (prev_color g1 ≠ selected_color g1) then
    set_changed_indeces ∅ (set_is_changing_color true g1)
  else set_is_changing_color false g1.

(** [switch (selected_color)]: the three cases assign [color], [default]
    leaves it. *)
Definition apply_selected_color (g : Globals) : Globals :=
  if (selected_color g =? 0)%Z then set_color (Vec3 f_one f_zero f_zero) g
  else if (selected_color g =? 1)%Z then set_color (Vec3 f_zero f_one f_zero) g
  else if (selected_color g =? 2)%Z then set_color (Vec3 f_zero f_zero f_one) g
  else g.

(** The state in which an iteration of the main loop calls [sceneRender]. *)
Definition before_render (p : Pad) (g : Globals) : Globals :=
  apply_selected_color (select (chosen_color (buttons_state p)) g).

(** [keys_down & Minus] resets the matrices; only otherwise does
    [keys_down & Plus] leave the loop. *)
Definition leaves (p : Pad) : bool :=
  negb (pressed (keys_down p) HidNpadButton_Minus)
  && pressed (keys_down p) HidNpadButton_Plus.

(** One iteration that reaches its end: input, [sceneRender],
    [prev_color = selected_color]. *)
Definition frame (fuel : nat) (p : Pad) (g : Globals) : result Globals :=
  g' ← sceneRender fuel (before_render p g);
  mret (set_prev_color (selected_color g') g').

(** The loop over the inputs of successive iterations; it ends when
    [appletMainLoop()] fails (no input left) or at the [break]. *)
Fixpoint main_loop (fuel : nat) (pads : list Pad) (g : Globals)
  : result Globals :=
  match pads with
  | [] => mret g
  | p :: rest =>
      if leaves p then mret (select (chosen_color (buttons_state p)) g)
      else g' ← frame fuel p g; main_loop fuel rest g'
  end.

End Animator.

(** ** Notions the statements use *)

(** The indices [rand() % 240] can give. *)
Definition drawable : gset Z := list_to_set (seqZ 0 240).

(** Every index of the set names a vertex that carries the current [color]. *)
Definition painted (g : Globals) : Prop :=
  ∀ i, i ∈ changed_indeces g →
    ∃ v, sphere g !! Z.to_nat i = Some v ∧ Vertex.color v = color g.

(** The state [paint] leaves when vertex [i] held [v]. *)
Definition painted_at (i : Z) (n : nat) (v : Vertex.t) (g : Globals) : Globals :=
  mkGlobals
    (<[Z.to_nat i := Vertex.mk (Vertex.position v) (color g)]> (sphere g))
    (color g) ({[ i ]} ∪ changed_indeces g) (is_changing_color g)
    (selected_color g) (prev_color g) n.

(** The state with the flag [is_changing_color] put aside. *)
Definition without_flag (g : Globals) : Globals := set_is_changing_color false g.

Definition on_result {A B : Type} (f : A → B) (r : result A) : result B :=
  match r with
  | Ret a => Ret (f a)
  | Spin => Spin
  | Undefined => Undefined
  end.

(** The indices a run of blocks leaves its loops with, in order: a block
    whose guard fails draws nothing, the [else] of the fourth only clears the
    flag. *)
Inductive recolors (rand : nat → N) : Globals → list Z → Globals → Prop :=
  | recolors_nil g : recolors rand g [] g
  | recolors_flag g l g' :
      recolors rand g l g' →
      recolors rand g l (set_is_changing_color false g')
  | recolors_draw g l g' fuel i n g'' :
      recolors rand g l g' →
      guard g' = true →
      draw_loop rand fuel (changed_indeces g') (S (rand_calls g')) = Ret (i, n) →
      paint i n g' = Ret g'' →
      recolors rand g (l ++ [i]) g''.

(** What a call, or several, may do to the state it finds: the selection
    and the target colour stay, the set only gains indices, each gained index
    is below 240 and its vertex takes the target colour and keeps its
    position, every other vertex is as before. *)
Record advance (g g' : Globals) : Prop := mkAdvance {
  adv_color : color g' = color g;
  adv_selected : selected_color g' = selected_color g;
  adv_prev : prev_color g' = prev_color g;
  adv_length : length (sphere g') = length (sphere g);
  adv_subseteq : changed_indeces g ⊆ changed_indeces g';
  adv_new : ∀ i, i ∈ changed_indeces g' → i ∉ changed_indeces g →
      (0 ≤ i < 240)%Z ∧
      ∃ v, sphere g !! Z.to_nat i = Some v ∧
           sphere g' !! Z.to_nat i
           = Some (Vertex.mk (Vertex.position v) (color g));
  adv_old : ∀ j, Z.of_nat j ∉ changed_indeces g' ∨ Z.of_nat j ∈ changed_indeces g →
      sphere g' !! j = sphere g !! j;
  adv_rand : rand_calls g ≤ rand_calls g';
}.

(** The colour [switch (selected_color)] assigns for the values the input
    chain can select. *)
Definition palette (c : Z) : vec3 :=
  if (c =? 0)%Z then Vec3 f_one f_zero f_zero
  else if (c =? 1)%Z then Vec3 f_zero f_one f_zero
  else Vec3 f_zero f_zero f_one.

(** What holds of the globals between two iterations of the main loop. *)
Record consistent (g : Globals) : Prop := mkConsistent {
  cons_painted : painted g;
  cons_color : color g = palette (prev_color g);
  cons_prev : prev_color g = 0%Z ∨ prev_color g = 1%Z ∨ prev_color g = 2%Z;
  cons_drawable : changed_indeces g ⊆ drawable;
}.

(** ** Inputs to run the model on *)

Definition white_vertex : Vertex.t :=
  Vertex.mk (Vec3 f_zero f_zero f_zero) (Vec3 f_one f_one f_one).

(** Modelled from the spec: the array [sphere] of [sphere.h] has N = 720
    entries, 240 triangles of three vertices.  Their positions and first
    colours are not given; the animation reads neither, and this array has
    them all alike. *)
Definition mesh_720 : list Vertex.t := replicate 720 white_vertex.

(** Three sequences [rand()] may give. *)

(** 0, 1, 2, 3, ... *)
Definition rand_counting (n : nat) : N := N.of_nat n.


(** 500, 500, 500, ... *)
Definition rand_500 (n : nat) : N := 500%N.

(** The state a result holds, [d] when the call did not return. *)
Definition returned (r : result Globals) (d : Globals) : Globals :=
  match r with
  | Ret g => g
  | _ => d
  end.

(** The state after 60 calls on the fresh mesh when [rand()] counts up. *)
Definition after_60_calls : Globals :=
  returned (calls rand_counting 60 3 (initial mesh_720)) (initial []).









(** The state after one iteration of the main loop on the fresh mesh with
    Up held. *)
Definition after_first_frame : Globals :=
  returned (frame rand_counting 2 (mkPad HidNpadButton_Up 0) (initial mesh_720))
           (initial []).

(** The state after a second iteration, with Up still held and with
    nothing held. *)
Definition after_second_frame_up : Globals :=
  returned (frame rand_counting 2 (mkPad HidNpadButton_Up 0) after_first_frame)
           (initial []).

Definition after_second_frame_idle : Globals :=
  returned (frame rand_counting 2 (mkPad 0 0) after_first_frame) (initial []).



(** The state after one call on the fresh mesh, [rand()] counting up. *)
Definition after_first_call : Globals :=
  returned (sceneRender rand_counting 1 (initial mesh_720)) (initial []).

(** After that call, Up is held: the state in which the next iteration
    calls [sceneRender], and the state that call leaves. *)
Definition after_reset : Globals :=
  before_render (mkPad HidNpadButton_Up 0) after_first_call.

Definition after_reset_call : Globals :=
  returned (sceneRender rand_counting 1 after_reset) (initial []).

(** The fresh mesh with the indices 1 and 2 in the set. *)
Definition one_two_drawn : Globals :=
  set_changed_indeces {[ 1%Z; 2%Z ]} (initial mesh_720).

(** 77, 1, 2, 3, ...: [rand_counting] with another first value. *)
Definition rand_counting_from_77 (n : nat) : N :=
  match n with
  | O => 77%N
  | S _ => N.of_nat n
  end.

(** An array of one vertex. *)
Definition mesh_1 : list Vertex.t := [white_vertex].

(** 61 iterations with no button held or pressed. *)
Definition idle_61 : list Pad := replicate 61 (mkPad 0 0).

(** An iteration with Down held and Plus pressed, and what it leaves of the
    state after the first call. *)
Definition pad_down_plus : Pad := mkPad HidNpadButton_Down HidNpadButton_Plus.

(** ** EGL: [initEgl] and [deinitEgl]

    A handle ([EGLDisplay], [EGLSurface], [EGLContext]) is the value of the
    pointer, 0 for [nullptr], [EGL_NO_SURFACE] and [EGL_NO_CONTEXT].  The
    calls to the EGL library are recorded in order, each with the arguments
    that matter and with what it returned.  [TRACE], the logging macro of
    [nxlink.h], and the [eglGetError()] it prints are not recorded. *)
Record EglState : Type := mkEglState {
  s_display : Z;
  s_context : Z;
  s_surface : Z;
}.

(** The three statics before [initEgl]: zero-initialised. *)
Definition no_egl : EglState := mkEglState 0 0 0.

Inductive egl_call : Type :=
  | eglGetDisplay (ret : Z)
  | eglInitialize (dpy : Z)
  | eglBindAPI (ret : bool)
  | eglChooseConfig (dpy : Z) (num_config : Z)
  | eglCreateWindowSurface (dpy ret : Z)
  | eglCreateContext (dpy ret : Z)
  | eglMakeCurrent (dpy draw read ctx : Z)
  | eglDestroySurface (dpy surface : Z)
  | eglDestroyContext (dpy ctx : Z)
  | eglTerminate (dpy : Z)
  | eglSwapBuffers (dpy surface : Z).

(** What the library answers to the calls of [initEgl]: the display, whether
    [eglBindAPI] succeeded, the value [numConfigs] holds after
    [eglChooseConfig], the surface and the context.  The results of
    [eglInitialize], [eglChooseConfig] and [eglMakeCurrent] are not looked
    at by the code. *)
Record EglReplies : Type := mkEglReplies {
  reply_display : Z;
  reply_bind_api : bool;
  reply_num_configs : Z;
  reply_surface : Z;
  reply_context : Z;
}.

(** [_fail0: return false;] *)
Definition initEgl_fail0 (st : EglState) (t : list egl_call)
  : bool * EglState * list egl_call :=
  (false, st, t).

(** [_fail1: eglTerminate(s_display); s_display = nullptr;] and on to
    [_fail0]. *)
Definition initEgl_fail1 (st : EglState) (t : list egl_call)
  : bool * EglState * list egl_call :=
  initEgl_fail0 (mkEglState 0 (s_context st) (s_surface st))
                (t ++ [eglTerminate (s_display st)]).

(** [_fail2: eglDestroySurface(s_display, s_surface); s_surface = nullptr;]
    and on to [_fail1]. *)
Definition initEgl_fail2 (st : EglState) (t : list egl_call)
  : bool * EglState * list egl_call :=
  initEgl_fail1 (mkEglState (s_display st) (s_context st) 0)
                (t ++ [eglDestroySurface (s_display st) (s_surface st)]).

Definition initEgl (r : EglReplies) (st : EglState)
  : bool * EglState * list egl_call :=
  let st1 := mkEglState (reply_display r) (s_context st) (s_surface st) in
  let t1 := [eglGetDisplay (reply_display r)] in
  if (s_display st1 =? 0)%Z then initEgl_fail0 st1 t1
  else
    let t2 := t1 ++ [eglInitialize (s_display st1);
                     eglBindAPI (reply_bind_api r)] in
    if negb (reply_bind_api r) then initEgl_fail1 st1 t2
    else
      let t3 := t2 ++ [eglChooseConfig (s_display st1) (reply_num_configs r)] in
      if (reply_num_configs r =? 0)%Z then initEgl_fail1 st1 t3
      else
        let st2 := mkEglState (s_display st1) (s_context st1) (reply_surface r) in
        let t4 := t3 ++ [eglCreateWindowSurface (s_display st1) (reply_surface r)] in
        if (s_surface st2 =? 0)%Z then initEgl_fail1 st2 t4
        else
          let st3 := mkEglState (s_display st2) (reply_context r) (s_surface st2) in
          let t5 := t4 ++ [eglCreateContext (s_display st2) (reply_context r)] in
          if (s_context st3 =? 0)%Z then initEgl_fail2 st3 t5
          else
            (true, st3,
             t5 ++ [eglMakeCurrent (s_display st3) (s_surface st3)
                                   (s_surface st3) (s_context st3)]).

Definition deinitEgl (st : EglState) : EglState * list egl_call :=
  if (s_display st =? 0)%Z then (st, [])
  else
    let d := s_display st in
    let t1 := [eglMakeCurrent d 0 0 0] in
    let '(st2, t2) :=
      if (s_context st =? 0)%Z then (st, t1)
      else (mkEglState d 0 (s_surface st),
            t1 ++ [eglDestroyContext d (s_context st)]) in
    let '(st3, t3) :=
      if (s_surface st2 =? 0)%Z then (st2, t2)
      else (mkEglState d (s_context st2) 0,
            t2 ++ [eglDestroySurface d (s_surface st2)]) in
    (mkEglState 0 (s_context st3) (s_surface st3), t3 ++ [eglTerminate d]).

(** What a sequence of calls has acquired and not given back: a display
    connection from [eglInitialize] to [eglTerminate], a surface or a context
    from its creation (when not null) to its destruction. *)
Inductive egl_resource : Type :=
  | Connection (dpy : Z)
  | Surface (surface : Z)
  | Context (ctx : Z).

#[global] Instance egl_resource_eq_dec : EqDecision egl_resource.
Proof. solve_decision. Defined.

Definition release (x : egl_resource) (held : list egl_resource)
  : list egl_resource :=
  filter (λ y, y ≠ x) held.

Definition egl_step (held : list egl_resource) (c : egl_call)
  : list egl_resource :=
  match c with
  | eglInitialize d => Connection d :: held
  | eglCreateWindowSurface _ s =>
      if (s =? 0)%Z then held else Surface s :: held
  | eglCreateContext _ x => if (x =? 0)%Z then held else Context x :: held
  | eglDestroySurface _ s => release (Surface s) held
  | eglDestroyContext _ x => release (Context x) held
  | eglTerminate d => release (Connection d) held
  | _ => held
  end.

Definition egl_held (t : list egl_call) : list egl_resource :=
  fold_left egl_step t [].

(** ** [main], as far as EGL, the exit status and the animation go

    [EXIT_SUCCESS] is 0 and [EXIT_FAILURE] is 1.  An iteration that reaches
    its end swaps the buffers once; the calls to OpenGL, to the pad and to
    the applet are not recorded here. *)
Definition EXIT_SUCCESS : Z := 0.
Definition EXIT_FAILURE : Z := 1.

(** The iterations that reach [eglSwapBuffers]: those before the first that
    leaves the loop. *)
Fixpoint frames_shown (pads : list Pad) : nat :=
  match pads with
  | [] => 0
  | p :: rest => if leaves p then 0 else S (frames_shown rest)
  end.

Definition main (r : EglReplies) (rand : nat → N) (fuel : nat)
    (pads : list Pad) (mesh : list Vertex.t)
  : result (Z * EglState * list egl_call) :=
  let '(ok, st, t) := initEgl r no_egl in
  if negb ok then mret (EXIT_FAILURE, st, t)
  else
    _ ← main_loop rand fuel pads (initial mesh);
    let swaps :=
      replicate (frames_shown pads)
                (eglSwapBuffers (s_display st) (s_surface st)) in
    let '(st', t') := deinitEgl st in
    mret (EXIT_SUCCESS, st', t ++ swaps ++ t').

(** The number of [eglSwapBuffers] among some calls. *)
Definition is_swap (c : egl_call) : bool :=
  match c with
  | eglSwapBuffers _ _ => true
  | _ => false
  end.

Definition swap_count (t : list egl_call) : nat :=
  length (List.filter is_swap t).

(** Replies of a library that grants everything, of one that has no
    configuration to offer and of one that refuses the context. *)
Definition replies_ok : EglReplies := mkEglReplies 1 true 1 2 3.
Definition replies_no_config : EglReplies := mkEglReplies 1 true 0 2 3.
Definition replies_no_context : EglReplies := mkEglReplies 1 true 1 2 0.

(** Two iterations, red then Up held, and a third that leaves the loop. *)
Definition short_session : list Pad :=
  [mkPad 0 0; mkPad HidNpadButton_Up 0; pad_down_plus; mkPad 0 0].

(** What [main] returns on them when EGL grants everything. *)
Definition short_session_outcome : Z * EglState * list egl_call :=
  (EXIT_SUCCESS, no_egl,
   [eglGetDisplay 1; eglInitialize 1; eglBindAPI true; eglChooseConfig 1 1;
    eglCreateWindowSurface 1 2; eglCreateContext 1 3; eglMakeCurrent 1 2 2 3;
    eglSwapBuffers 1 2; eglSwapBuffers 1 2;
    eglMakeCurrent 1 0 0 0; eglDestroyContext 1 3; eglDestroySurface 1 2;
    eglTerminate 1]).

(** ** OpenGL objects: [createAndCompileShader], [sceneInit], [sceneExit]

    A name ([GLuint]) is a number, 0 for none.  The calls are recorded in
    order with the arguments that matter and with what they returned; the
    enumerants and the two shader texts go by their names.  [TRACE] is not
    recorded. *)
Inductive shader_type : Type := GL_VERTEX_SHADER | GL_FRAGMENT_SHADER.
Inductive shader_text : Type := vertexShaderSource | fragmentShaderSource.
Inductive uniform_name : Type := transform | translation | color_uniform.
Inductive vertex_member : Type := member_position | member_color.

Inductive gl_call : Type :=
  | glCreateShader (type : shader_type) (ret : Z)
  | glShaderSource (shader : Z) (text : shader_text)
  | glCompileShader (shader : Z)
  | glGetShaderiv (shader : Z) (compile_status : Z)
  | glGetShaderInfoLog (shader : Z)
  | glDeleteShader (shader : Z)
  | glCreateProgram (ret : Z)
  | glAttachShader (program shader : Z)
  | glLinkProgram (program : Z)
  | glGetProgramiv (program : Z) (link_status : Z)
  | glGetProgramInfoLog (program : Z)
  | glGetUniformLocation (program : Z) (name : uniform_name) (ret : Z)
  | glGenVertexArrays (ret : Z)
  | glGenBuffers (ret : Z)
  | glBindVertexArray (array : Z)
  | glBindBuffer (buffer : Z)
  | glBufferData (data : list Vertex.t)
  | glVertexAttribPointer (index : Z) (member : vertex_member)
  | glEnableVertexAttribArray (index : Z)
  | glEnable_GL_CULL_FACE
  | glDeleteBuffers (buffer : Z)
  | glDeleteVertexArrays (array : Z)
  | glDeleteProgram (program : Z).

(** What [glCreateShader] returns and what [glGetShaderiv] writes to
    [success]. *)
Record ShaderReplies : Type := mkShaderReplies {
  reply_shader : Z;
  reply_compile_status : Z;
}.

Definition createAndCompileShader
    (type : shader_type) (source : shader_text) (r : ShaderReplies)
  : Z * list gl_call :=
  let handle := reply_shader r in
  let t1 := [glCreateShader type handle] in
  if (handle =? 0)%Z then (0%Z, t1)
  else
    let t2 := t1 ++ [glShaderSource handle source; glCompileShader handle;
                     glGetShaderiv handle (reply_compile_status r)] in
    if (reply_compile_status r =? 0)%Z then
      (0%Z, t2 ++ [glGetShaderInfoLog handle; glDeleteShader handle])
    else (handle, t2).

(** The statics [sceneInit] assigns.  The three locations are
    [unsigned int]: the [GLint] that [glGetUniformLocation] returns is taken
    modulo [2^32]. *)
Record Scene : Type := mkScene {
  s_program : Z;
  s_vao : Z;
  s_vbo : Z;
  transformation_uniform_loc : Z;
  translation_uniform_loc : Z;
  color_uniform_loc : Z;
}.

Record SceneReplies : Type := mkSceneReplies {
  reply_vsh : ShaderReplies;
  reply_fsh : ShaderReplies;
  reply_program : Z;
  reply_link_status : Z;
  reply_transform : Z;
  reply_translation : Z;
  reply_color : Z;
  reply_vao : Z;
  reply_vbo : Z;
}.

Definition to_unsigned_int (x : Z) : Z := (x mod 2 ^ 32)%Z.

Definition sceneInit (r : SceneReplies) (mesh : list Vertex.t)
  : Scene * list gl_call :=
  let '(vsh, tv) :=
    createAndCompileShader GL_VERTEX_SHADER vertexShaderSource (reply_vsh r) in
  let '(fsh, tf) :=
    createAndCompileShader GL_FRAGMENT_SHADER fragmentShaderSource (reply_fsh r) in
  let p := reply_program r in
  let t1 := tv ++ tf ++
            [glCreateProgram p; glAttachShader p vsh; glAttachShader p fsh;
             glLinkProgram p; glGetProgramiv p (reply_link_status r)] in
  let t2 := if (reply_link_status r =? 0)%Z
            then t1 ++ [glGetProgramInfoLog p] else t1 in
  let vao := reply_vao r in
  let vbo := reply_vbo r in
  (mkScene p vao vbo
           (to_unsigned_int (reply_transform r))
           (to_unsigned_int (reply_translation r))
           (to_unsigned_int (reply_color r)),
   t2 ++ [glDeleteShader vsh; glDeleteShader fsh;
          glGetUniformLocation p transform (reply_transform r);
          glGetUniformLocation p translation (reply_translation r);
          glGetUniformLocation p color_uniform (reply_color r);
          glGenVertexArrays vao; glGenBuffers vbo;
          glBindVertexArray vao; glBindBuffer vbo; glBufferData mesh;
          glVertexAttribPointer 0 member_position; glEnableVertexAttribArray 0;
          glVertexAttribPointer 1 member_color; glEnableVertexAttribArray 1;
          glBindBuffer 0; glBindVertexArray 0; glEnable_GL_CULL_FACE]).

Definition sceneExit (sc : Scene) : list gl_call :=
  [glDeleteBuffers (s_vbo sc); glDeleteVertexArrays (s_vao sc);
   glDeleteProgram (s_program sc)].

(** The objects some calls have created and not deleted. *)
Inductive gl_object : Type :=
  | Shader (name : Z)
  | Program (name : Z)
  | VertexArray (name : Z)
  | Buffer (name : Z).

#[global] Instance gl_object_eq_dec : EqDecision gl_object.
Proof. solve_decision. Defined.

Definition gl_delete (x : gl_object) (held : list gl_object) : list gl_object :=
  filter (λ y, y ≠ x) held.

Definition gl_create (x : gl_object) (name : Z) (held : list gl_object)
  : list gl_object :=
  if (name =? 0)%Z then held else x :: held.

Definition gl_step (held : list gl_object) (c : gl_call) : list gl_object :=
  match c with
  | glCreateShader _ n => gl_create (Shader n) n held
  | glCreateProgram n => gl_create (Program n) n held
  | glGenVertexArrays n => gl_create (VertexArray n) n held
  | glGenBuffers n => gl_create (Buffer n) n held
  | glDeleteShader n => gl_delete (Shader n) held
  | glDeleteProgram n => gl_delete (Program n) held
  | glDeleteVertexArrays n => gl_delete (VertexArray n) held
  | glDeleteBuffers n => gl_delete (Buffer n) held
  | _ => held
  end.

Definition gl_held (t : list gl_call) : list gl_object :=
  fold_left gl_step t [].

(** Replies for two shaders that compile, and for a fragment shader that
    does not. *)
Definition scene_replies_ok : SceneReplies :=
  mkSceneReplies (mkShaderReplies 1 1) (mkShaderReplies 2 1) 3 1 0 1 2 1 1.

Definition scene_replies_bad_fsh : SceneReplies :=
  mkSceneReplies (mkShaderReplies 1 1) (mkShaderReplies 2 0) 3 0 (-1) (-1) (-1) 1 1.

(** ** [proc_map] of [include/utils.h], at [T = int]

    The template computes in its type parameter.  At [int] (32 bits) the
    division truncates toward zero, and a division by zero or a result
    outside the range of [int] is undefined: [None]. *)
Definition in_int (x : Z) : bool :=
  ((- 2 ^ 31 <=? x) && (x <? 2 ^ 31))%Z.

Definition as_int (x : Z) : option Z := if in_int x then Some x else None.

Definition proc_map (value istart istop ostart ostop : Z) : option Z :=
  a ← as_int (value - istart);
  b ← as_int (istop - istart);
  q ← (if (b =? 0)%Z then None else as_int (a ÷ b));
  c ← as_int (ostop - ostart);
  m ← as_int (c * q);
  as_int (ostart + m).

(** ** The parts of a block *)

Lemma rand_mod_240_range (rand : nat → N) (n : nat) :
  (0 ≤ rand_mod_240 rand n < 240)%Z.
Proof.
  unfold rand_mod_240. apply Z.rem_bound_pos; lia.
Qed.

Lemma elem_of_drawable (i : Z) : i ∈ drawable ↔ (0 ≤ i < 240)%Z.
Proof.
  unfold drawable. rewrite elem_of_list_to_set, elem_of_seqZ. lia.
Qed.

Lemma size_drawable : size drawable = 240.
Proof.
  unfold drawable. rewrite size_list_to_set by apply NoDup_seqZ.
  rewrite length_seqZ. reflexivity.
Qed.

#[local] Opaque drawable.
#[local] Typeclasses Opaque drawable.

Lemma empty_drawable (g : Globals) :
  changed_indeces g = ∅ → changed_indeces g ⊆ drawable.
Proof. intros ->. apply empty_subseteq. Qed.

Lemma store_color_Ret (m : list Vertex.t) (i : Z) (c : vec3) m' :
  store_color m i c = Ret m' →
  (0 ≤ i)%Z ∧
  ∃ v, m !! Z.to_nat i = Some v ∧
       m' = <[Z.to_nat i := Vertex.mk (Vertex.position v) c]> m.
Proof.
  unfold store_color. case_bool_decide; [|discriminate].
  destruct (m !! Z.to_nat i) as [v|] eqn:Hv; [|discriminate].
  intros [= <-]. eauto.
Qed.

Lemma store_color_in_bounds (m : list Vertex.t) (i : Z) (c : vec3) v :
  (0 ≤ i)%Z → m !! Z.to_nat i = Some v →
  store_color m i c = Ret (<[Z.to_nat i := Vertex.mk (Vertex.position v) c]> m).
Proof.
  intros Hi Hv. unfold store_color. rewrite bool_decide_eq_true_2 by done.
  by rewrite Hv.
Qed.

(** Writing the same colour again changes nothing. *)
Lemma store_color_again (m : list Vertex.t) (i : Z) (c : vec3) m' :
  store_color m i c = Ret m' → store_color m' i c = Ret m'.
Proof.
  intros H. destruct (store_color_Ret _ _ _ _ H) as (Hi & v & Hv & ->).
  assert (Hlt : Z.to_nat i < length m) by (eapply lookup_lt_Some; eauto).
  erewrite store_color_in_bounds; [|done|by apply list_lookup_insert_eq].
  simpl. by rewrite list_insert_insert_eq.
Qed.

Lemma paint_Ret (i : Z) (n : nat) (g g' : Globals) :
  paint i n g = Ret g' →
  (0 ≤ i)%Z ∧ ∃ v, sphere g !! Z.to_nat i = Some v ∧ g' = painted_at i n v g.
Proof.
  unfold paint. intros H.
  destruct (store_color (sphere g) i (color g)) as [m1| |] eqn:H1;
    simpl in H; try discriminate.
  rewrite (store_color_again _ _ _ _ H1) in H. simpl in H.
  rewrite (store_color_again _ _ _ _ H1) in H. simpl in H.
  destruct (store_color_Ret _ _ _ _ H1) as (Hi & v & Hv & ->).
  injection H as <-. split; [done|]. exists v. split; [done|]. reflexivity.
Qed.

Lemma paint_in_bounds (i : Z) (n : nat) (g : Globals) v :
  (0 ≤ i)%Z → sphere g !! Z.to_nat i = Some v →
  paint i n g = Ret (painted_at i n v g).
Proof.
  intros Hi Hv. unfold paint.
  pose proof (store_color_in_bounds _ _ (color g) _ Hi Hv) as H1.
  rewrite H1. simpl.
  rewrite (store_color_again _ _ _ _ H1). simpl.
  rewrite (store_color_again _ _ _ _ H1). reflexivity.
Qed.

Lemma paint_outside (i : Z) (n : nat) (g : Globals) :
  (0 ≤ i)%Z → length (sphere g) ≤ Z.to_nat i → paint i n g = Undefined.
Proof.
  intros Hi Hlen. unfold paint, store_color.
  rewrite bool_decide_eq_true_2 by done.
  by rewrite (lookup_ge_None_2 _ _ Hlen).
Qed.

(** The loop leaves with the first index, from call [n] on, that is not in
    the set; it is below 240. *)
Lemma draw_loop_Ret (rand : nat → N) (fuel : nat) (s : gset Z) (n : nat) i n' :
  draw_loop rand fuel s n = Ret (i, n') →
  (i ∉ s) ∧ (0 ≤ i < 240)%Z ∧ n < n' ∧ i = rand_mod_240 rand (pred n') ∧
  ∀ k, n ≤ k < pred n' → rand_mod_240 rand k ∈ s.
Proof.
  revert n. induction fuel as [|fuel IH]; intros n; simpl; [discriminate|].
  destruct (decide (rand_mod_240 rand n ∈ s)) as [Hin|Hout].
  - intros H. destruct (IH _ H) as (? & ? & ? & ? & Hk).
    repeat split; try done; try lia.
    intros k Hrange. destruct (decide (k = n)) as [->|]; [done|].
    apply Hk. lia.
  - intros [= <- <-]. simpl. repeat split; try done.
    + apply rand_mod_240_range.
    + apply rand_mod_240_range.
    + lia.
    + intros k ?. lia.
Qed.

Lemma draw_loop_not_Undefined (rand : nat → N) (fuel : nat) (s : gset Z) n :
  draw_loop rand fuel s n ≠ Undefined.
Proof.
  revert n. induction fuel as [|fuel IH]; intros n; simpl; [discriminate|].
  destruct (decide (rand_mod_240 rand n ∈ s)); [apply IH|discriminate].
Qed.

(** Once every index below 240 is in the set, no amount of fuel lets the
    loop leave. *)
Lemma draw_loop_Spin (rand : nat → N) (fuel : nat) (s : gset Z) n :
  drawable ⊆ s → draw_loop rand fuel s n = Spin.
Proof.
  intros Hfull. revert n. induction fuel as [|fuel IH]; intros n; simpl; [done|].
  rewrite decide_True; [apply IH|].
  apply Hfull, elem_of_drawable, rand_mod_240_range.
Qed.

(** More fuel does not change where the loop leaves. *)
Lemma draw_loop_fuel_mono (rand : nat → N) (fuel fuel' : nat) (s : gset Z) n r :
  fuel ≤ fuel' → draw_loop rand fuel s n = Ret r →
  draw_loop rand fuel' s n = Ret r.
Proof.
  revert fuel' n. induction fuel as [|fuel IH]; intros fuel' n Hle; simpl;
    [discriminate|].
  destruct fuel' as [|fuel']; [lia|]. simpl.
  destruct (decide (rand_mod_240 rand n ∈ s)); [|done].
  apply IH. lia.
Qed.

(** If some call from [n] on gives an index outside the set, the loop
    leaves, given the fuel to get there. *)
Lemma draw_loop_finds (rand : nat → N) (s : gset Z) (n k : nat) :
  rand_mod_240 rand (n + k) ∉ s →
  ∃ r, draw_loop rand (S k) s n = Ret r.
Proof.
  revert n. induction k as [|k IH]; intros n Hk.
  - simpl. rewrite Nat.add_0_r in Hk. rewrite decide_False by done. eauto.
  - change (draw_loop rand (S (S k)) s n) with
      (if decide (rand_mod_240 rand n ∈ s)
       then draw_loop rand (S k) s (S n) else Ret (rand_mod_240 rand n, S n)).
    destruct (decide (rand_mod_240 rand n ∈ s)); [|eauto].
    apply IH. by replace (S n + k) with (n + S k) by lia.
Qed.

Lemma block_Ret (rand : nat → N) (fuel : nat) (g g' : Globals) :
  block rand fuel g = Ret g' →
  (guard g = false ∧ g' = g) ∨
  (guard g = true ∧ ∃ i n,
     draw_loop rand fuel (changed_indeces g) (S (rand_calls g)) = Ret (i, n) ∧
     paint i n g = Ret g').
Proof.
  unfold block, recolor. destruct (guard g); [|intros [= <-]; by left].
  destruct (draw_loop _ _ _ _) as [[i n]| |] eqn:Hd; simpl; try discriminate.
  intros Hp. right. eauto.
Qed.

Lemma last_block_Ret (rand : nat → N) (fuel : nat) (g g' : Globals) :
  last_block rand fuel g = Ret g' →
  (guard g = false ∧ g' = set_is_changing_color false g) ∨
  (guard g = true ∧ ∃ i n,
     draw_loop rand fuel (changed_indeces g) (S (rand_calls g)) = Ret (i, n) ∧
     paint i n g = Ret g').
Proof.
  unfold last_block, recolor. destruct (guard g); [|intros [= <-]; by left].
  destruct (draw_loop _ _ _ _) as [[i n]| |] eqn:Hd; simpl; try discriminate.
  intros Hp. right. eauto.
Qed.

Lemma sceneRender_Ret (rand : nat → N) (fuel : nat) (g g' : Globals) :
  sceneRender rand fuel g = Ret g' →
  ∃ g1 g2 g3, block rand fuel g = Ret g1 ∧ block rand fuel g1 = Ret g2 ∧
              block rand fuel g2 = Ret g3 ∧ last_block rand fuel g3 = Ret g'.
Proof.
  unfold sceneRender. intros H.
  destruct (block rand fuel g) as [g1| |] eqn:H1; simpl in H; try discriminate.
  destruct (block rand fuel g1) as [g2| |] eqn:H2; simpl in H; try discriminate.
  destruct (block rand fuel g2) as [g3| |] eqn:H3; simpl in H; try discriminate.
  by exists g1, g2, g3.
Qed.

(** ** What a call does to the state *)

Lemma advance_refl (g : Globals) : advance g g.
Proof.
  split; done.
Qed.

Lemma advance_trans (g1 g2 g3 : Globals) :
  advance g1 g2 → advance g2 g3 → advance g1 g3.
Proof.
  intros [Hc1 Hs1 Hp1 Hl1 Hsub1 Hnew1 Hold1 Hr1] [Hc2 Hs2 Hp2 Hl2 Hsub2 Hnew2 Hold2 Hr2].
  split; try congruence; try lia.
  - set_solver.
  - intros i Hin3 Hout1.
    destruct (decide (i ∈ changed_indeces g2)) as [Hin2|Hout2].
    + destruct (Hnew1 i Hin2 Hout1) as (Hrange & v & Hv & Hv').
      split; [done|]. exists v. split; [done|].
      rewrite <- Hv'. apply Hold2. right. by rewrite Z2Nat.id by lia.
    + destruct (Hnew2 i Hin3 Hout2) as (Hrange & v & Hv & Hv').
      split; [done|]. exists v. split.
      * rewrite <- Hv. symmetry. apply Hold1. left. by rewrite Z2Nat.id by lia.
      * by rewrite Hv', Hc1.
  - intros j Hj. rewrite Hold2, Hold1; [done| |].
    + destruct Hj as [Hj|Hj]; [left|by right]. set_solver.
    + destruct Hj as [Hj|Hj]; [by left|right]. set_solver.
Qed.

Lemma advance_flag (g : Globals) (b : bool) :
  advance g (set_is_changing_color b g).
Proof.
  split; done.
Qed.

Lemma advance_painted_at (g : Globals) (i : Z) (n : nat) v :
  i ∉ changed_indeces g → (0 ≤ i < 240)%Z →
  sphere g !! Z.to_nat i = Some v → rand_calls g ≤ n →
  advance g (painted_at i n v g).
Proof.
  intros Hout Hrange Hv Hn.
  assert (Hlt : Z.to_nat i < length (sphere g)) by (eapply lookup_lt_Some; eauto).
  split; simpl; try done.
  - apply length_insert.
  - set_solver.
  - intros i' Hin Hout'. assert (i' = i) as -> by set_solver.
    split; [done|]. exists v. split; [done|].
    by apply list_lookup_insert_eq.
  - intros j Hj. apply list_lookup_insert_ne. intros <-.
    rewrite Z2Nat.id in Hj by lia. set_solver.
Qed.

(** A block that returns either did nothing or drew one new index. *)
Lemma block_advance (rand : nat → N) (fuel : nat) (g g' : Globals) :
  block rand fuel g = Ret g' →
  advance g g' ∧ is_changing_color g' = is_changing_color g ∧
  (guard g = false ∧ g' = g ∨
   guard g = true ∧
   size (changed_indeces g') = S (size (changed_indeces g))).
Proof.
  intros H. destruct (block_Ret _ _ _ _ H) as [[Hg ->]|(Hg & i & n & Hd & Hp)].
  - split; [apply advance_refl|]. split; [done|]. by left.
  - destruct (draw_loop_Ret _ _ _ _ _ _ Hd) as (Hout & Hrange & Hn & _).
    destruct (paint_Ret _ _ _ _ Hp) as (_ & v & Hv & ->).
    split; [apply advance_painted_at; try done; lia|].
    split; [done|]. right. split; [done|]. simpl.
    rewrite size_union by set_solver. by rewrite size_singleton.
Qed.

Lemma last_block_advance (rand : nat → N) (fuel : nat) (g g' : Globals) :
  last_block rand fuel g = Ret g' →
  advance g g' ∧
  (guard g = false ∧ g' = set_is_changing_color false g ∨
   guard g = true ∧ is_changing_color g' = is_changing_color g ∧
   size (changed_indeces g') = S (size (changed_indeces g))).
Proof.
  intros H.
  destruct (last_block_Ret _ _ _ _ H) as [[Hg ->]|(Hg & i & n & Hd & Hp)].
  - split; [apply advance_flag|]. by left.
  - destruct (draw_loop_Ret _ _ _ _ _ _ Hd) as (Hout & Hrange & Hn & _).
    destruct (paint_Ret _ _ _ _ Hp) as (_ & v & Hv & ->).
    split; [apply advance_painted_at; try done; lia|].
    right. split; [done|]. split; [done|]. simpl.
    rewrite size_union by set_solver. by rewrite size_singleton.
Qed.

Lemma sceneRender_advance (rand : nat → N) (fuel : nat) (g g' : Globals) :
  sceneRender rand fuel g = Ret g' → advance g g'.
Proof.
  intros H.
  destruct (sceneRender_Ret _ _ _ _ H) as (g1 & g2 & g3 & H1 & H2 & H3 & H4).
  apply block_advance in H1 as [A1 _], H2 as [A2 _], H3 as [A3 _].
  apply last_block_advance in H4 as [A4 _].
  eauto using advance_trans.
Qed.

Lemma renders_advance (rand : nat → N) (g : Globals) (n : nat) (g' : Globals) :
  renders rand g n g' → advance g g'.
Proof.
  induction 1 as [g|g n g' fuel g'' _ IH Hcall]; [apply advance_refl|].
  eauto using advance_trans, sceneRender_advance.
Qed.

Lemma calls_renders (rand : nat → N) (n fuel : nat) (g g' : Globals) :
  calls rand n fuel g = Ret g' → renders rand g n g'.
Proof.
  revert g'. induction n as [|n IH]; intros g'; simpl.
  - intros [= <-]. constructor.
  - destruct (calls rand n fuel g) as [g1| |] eqn:Hn; simpl; try discriminate.
    intros Hcall. econstructor; eauto.
Qed.

(** The guard never lets the set outgrow the array. *)
Lemma guard_true (g : Globals) :
  guard g = true ↔ size (changed_indeces g) < length (sphere g).
Proof. unfold guard. apply bool_decide_eq_true. Qed.

Lemma guard_false (g : Globals) :
  guard g = false ↔ length (sphere g) ≤ size (changed_indeces g).
Proof. unfold guard. rewrite bool_decide_eq_false. lia. Qed.

Lemma block_size (rand : nat → N) (fuel : nat) (g g' : Globals) :
  block rand fuel g = Ret g' →
  size (changed_indeces g) ≤ size (changed_indeces g') ≤ S (size (changed_indeces g)) ∧
  (size (changed_indeces g) ≤ length (sphere g) →
   size (changed_indeces g') ≤ length (sphere g')).
Proof.
  intros H. destruct (block_advance _ _ _ _ H) as (A & _ & [[_ ->]|[Hg Hs]]).
  - lia.
  - apply guard_true in Hg. rewrite (adv_length _ _ A). lia.
Qed.

Lemma last_block_size (rand : nat → N) (fuel : nat) (g g' : Globals) :
  last_block rand fuel g = Ret g' →
  size (changed_indeces g) ≤ size (changed_indeces g') ≤ S (size (changed_indeces g)) ∧
  (size (changed_indeces g) ≤ length (sphere g) →
   size (changed_indeces g') ≤ length (sphere g')).
Proof.
  intros H. destruct (last_block_advance _ _ _ _ H) as (A & [[_ ->]|(Hg & _ & Hs)]).
  - simpl. lia.
  - apply guard_true in Hg. rewrite (adv_length _ _ A). lia.
Qed.

Lemma sceneRender_size (rand : nat → N) (fuel : nat) (g g' : Globals) :
  sceneRender rand fuel g = Ret g' →
  size (changed_indeces g) ≤ size (changed_indeces g') ≤ 4 + size (changed_indeces g) ∧
  (size (changed_indeces g) ≤ length (sphere g) →
   size (changed_indeces g') ≤ length (sphere g')).
Proof.
  intros H.
  destruct (sceneRender_Ret _ _ _ _ H) as (g1 & g2 & g3 & H1 & H2 & H3 & H4).
  apply block_size in H1, H2, H3. apply last_block_size in H4.
  split; [lia|]. intros. apply H4, H3, H2, H1. done.
Qed.

(** ** The range of the draw *)

(** C1.  The body of each of the four [if]s, run when the guard
    [|changed_indeces| < N] holds, draws by rejection: it leaves its loop
    with the first [rand() % 240] that is not in the set, writes the target
    colour to that vertex and inserts the index.  The index is below 240
    whatever [rand()] gives: the draw ranges over [0, 240), not over the
    [0, 720) of the 720 vertices. *)
Theorem recolor_draws_below_240 (rand : nat → N) (fuel : nat) (g g' : Globals) :
  recolor rand fuel g = Ret g' →
  ∃ i v,
    (0 ≤ i < 240)%Z ∧
    i = rand_mod_240 rand (pred (rand_calls g')) ∧
    (∀ k, S (rand_calls g) ≤ k < pred (rand_calls g') →
          rand_mod_240 rand k ∈ changed_indeces g) ∧
    (i ∉ changed_indeces g) ∧
    sphere g !! Z.to_nat i = Some v ∧
    sphere g'
    = <[Z.to_nat i := Vertex.mk (Vertex.position v) (color g)]> (sphere g) ∧
    changed_indeces g' = {[ i ]} ∪ changed_indeces g.
Proof.
  unfold recolor. intros H.
  destruct (draw_loop _ _ _ _) as [[i n]| |] eqn:Hd; simpl in H;
    try discriminate.
  destruct (draw_loop_Ret _ _ _ _ _ _ Hd) as (Hout & Hrange & Hn & Hi & Hk).
  destruct (paint_Ret _ _ _ _ H) as (_ & v & Hv & ->).
  exists i, v. simpl. repeat split; try done; lia.
Qed.

(** With [rand()] giving 500 the vertex recoloured in a fresh 720-vertex mesh
    is number 20, where a draw over [0, 720) would take number 500. *)
Lemma recolor_draws_below_240_witness :
  recolor rand_500 1 (initial mesh_720)
  = Ret (painted_at 20 2 white_vertex (initial mesh_720)) ∧
  ∃ i v,
    (0 ≤ i < 240)%Z ∧
    i = rand_mod_240 rand_500
          (pred (rand_calls (painted_at 20 2 white_vertex (initial mesh_720)))) ∧
    (∀ k, S (rand_calls (initial mesh_720)) ≤ k
            < pred (rand_calls (painted_at 20 2 white_vertex (initial mesh_720))) →
          rand_mod_240 rand_500 k ∈ changed_indeces (initial mesh_720)) ∧
    (i ∉ changed_indeces (initial mesh_720)) ∧
    sphere (initial mesh_720) !! Z.to_nat i = Some v ∧
    sphere (painted_at 20 2 white_vertex (initial mesh_720))
    = <[Z.to_nat i := Vertex.mk (Vertex.position v) (color (initial mesh_720))]>
        (sphere (initial mesh_720)) ∧
    changed_indeces (painted_at 20 2 white_vertex (initial mesh_720))
    = {[ i ]} ∪ changed_indeces (initial mesh_720).
Proof.
  assert (H : recolor rand_500 1 (initial mesh_720)
              = Ret (painted_at 20 2 white_vertex (initial mesh_720)))
    by (vm_compute; reflexivity).
  split; [exact H|].
  exact (recolor_draws_below_240 rand_500 1 (initial mesh_720) _ H).
Defined.

(** ** Runs of calls from the empty set *)

Lemma renders_drawable (rand : nat → N) (g : Globals) (n : nat) (g' : Globals) :
  changed_indeces g ⊆ drawable → renders rand g n g' →
  changed_indeces g' ⊆ drawable ∧ size (changed_indeces g') ≤ 240.
Proof.
  intros Hsub Hr. apply renders_advance in Hr.
  assert (changed_indeces g' ⊆ drawable) as Hsub'.
  { intros i Hi. destruct (decide (i ∈ changed_indeces g)) as [Hin|Hout];
      [exact (Hsub i Hin)|].
    apply elem_of_drawable. by destruct (adv_new _ _ Hr i Hi Hout). }
  split; [done|]. rewrite <- size_drawable. by apply subseteq_size.
Qed.

(** A block whose guard holds returns exactly when its loop leaves. *)
Lemma block_guarded (rand : nat → N) (fuel : nat) (g : Globals) :
  guard g = true → 240 ≤ length (sphere g) →
  (∃ g', block rand fuel g = Ret g' ∧
         size (changed_indeces g') = S (size (changed_indeces g))) ∨
  (block rand fuel g = Spin ∧
   draw_loop rand fuel (changed_indeces g) (S (rand_calls g)) = Spin).
Proof.
  intros Hg Hlen. unfold block, recolor. rewrite Hg.
  destruct (draw_loop _ _ _ _) as [[i n]| |] eqn:Hd; simpl.
  - left. destruct (draw_loop_Ret _ _ _ _ _ _ Hd) as (Hout & Hrange & _).
    destruct (lookup_lt_is_Some_2 (sphere g) (Z.to_nat i)) as [v Hv]; [lia|].
    rewrite (paint_in_bounds _ _ _ v) by (done || lia).
    eexists. split; [done|]. simpl.
    rewrite size_union by set_solver. by rewrite size_singleton.
  - by right.
  - by destruct (draw_loop_not_Undefined _ _ _ _ Hd).
Qed.

(** While the set stays short of the array, a call that returns has drawn
    four indices and has left the flag alone. *)
Lemma sceneRender_four (rand : nat → N) (fuel : nat) (g g' : Globals) :
  sceneRender rand fuel g = Ret g' →
  size (changed_indeces g') < length (sphere g) →
  size (changed_indeces g') = 4 + size (changed_indeces g) ∧
  is_changing_color g' = is_changing_color g.
Proof.
  intros H Hlt.
  destruct (sceneRender_Ret _ _ _ _ H) as (g1 & g2 & g3 & H1 & H2 & H3 & H4).
  pose proof (block_size _ _ _ _ H1) as [S1 _].
  pose proof (block_size _ _ _ _ H2) as [S2 _].
  pose proof (block_size _ _ _ _ H3) as [S3 _].
  pose proof (last_block_size _ _ _ _ H4) as [S4 _].
  destruct (block_advance _ _ _ _ H1) as (A1 & F1 & [[G1 _]|[_ E1]]);
    [apply guard_false in G1; lia|].
  destruct (block_advance _ _ _ _ H2) as (A2 & F2 & [[G2 _]|[_ E2]]);
    [apply guard_false in G2; rewrite (adv_length _ _ A1) in G2; lia|].
  destruct (block_advance _ _ _ _ H3) as (A3 & F3 & [[G3 _]|[_ E3]]);
    [apply guard_false in G3;
     rewrite (adv_length _ _ A2), (adv_length _ _ A1) in G3; lia|].
  destruct (last_block_advance _ _ _ _ H4) as (A4 & [[G4 _]|(_ & F4 & E4)]);
    [apply guard_false in G4;
     rewrite (adv_length _ _ A3), (adv_length _ _ A2), (adv_length _ _ A1) in G4;
     lia|].
  split; [lia|congruence].
Qed.

Lemma renders_count (rand : nat → N) (g : Globals) (n : nat) (g' : Globals) :
  changed_indeces g = ∅ → 240 < length (sphere g) → renders rand g n g' →
  size (changed_indeces g') = 4 * n ∧ is_changing_color g' = is_changing_color g.
Proof.
  intros Hempty Hlen. induction 1 as [g|g n g' fuel g'' Hr IH Hcall].
  - rewrite Hempty, size_empty. split; [lia|done].
  - destruct (IH Hempty Hlen) as [IHs IHf].
    assert (renders rand g (S n) g'') as Hr' by (econstructor; eauto).
    apply renders_drawable in Hr' as [_ Hle]; [|by apply empty_drawable].
    pose proof (adv_length _ _ (renders_advance _ _ _ _ Hr)) as Hl.
    destruct (sceneRender_four _ _ _ _ Hcall) as [Hs Hf]; [lia|].
    split; [lia|congruence].
Qed.

(** The call that finds all of [0, 240) in the set, and the array longer
    than that, stays in its first loop. *)
Lemma sceneRender_Spin (rand : nat → N) (fuel : nat) (g : Globals) :
  drawable ⊆ changed_indeces g → guard g = true →
  sceneRender rand fuel g = Spin.
Proof.
  intros Hfull Hg. unfold sceneRender, block, recolor. rewrite Hg.
  by rewrite draw_loop_Spin.
Qed.

Lemma calls_S (rand : nat → N) (n fuel : nat) (g : Globals) :
  calls rand (S n) fuel g = calls rand n fuel g ≫= sceneRender rand fuel.
Proof. reflexivity. Qed.

Lemma block_not_Undefined (rand : nat → N) (fuel : nat) (g : Globals) :
  240 ≤ length (sphere g) → block rand fuel g ≠ Undefined.
Proof.
  intros Hlen. destruct (guard g) eqn:Hg.
  - destruct (block_guarded rand fuel g Hg Hlen) as [(g' & -> & _)|[-> _]];
      discriminate.
  - unfold block. rewrite Hg. discriminate.
Qed.

Lemma last_block_not_Undefined (rand : nat → N) (fuel : nat) (g : Globals) :
  240 ≤ length (sphere g) → last_block rand fuel g ≠ Undefined.
Proof.
  intros Hlen. pose proof (block_not_Undefined rand fuel g Hlen) as H.
  unfold block, last_block in *. destruct (guard g); [done|discriminate].
Qed.

Lemma sceneRender_not_Undefined (rand : nat → N) (fuel : nat) (g : Globals) :
  240 ≤ length (sphere g) → sceneRender rand fuel g ≠ Undefined.
Proof.
  intros Hlen. unfold sceneRender.
  destruct (block rand fuel g) as [g1| |] eqn:H1; simpl; try discriminate;
    [|by destruct (block_not_Undefined rand fuel g Hlen)].
  pose proof (adv_length _ _ (proj1 (block_advance _ _ _ _ H1))) as L1.
  destruct (block rand fuel g1) as [g2| |] eqn:H2; simpl; try discriminate;
    [|destruct (block_not_Undefined rand fuel g1); [lia|done]].
  pose proof (adv_length _ _ (proj1 (block_advance _ _ _ _ H2))) as L2.
  destruct (block rand fuel g2) as [g3| |] eqn:H3; simpl; try discriminate;
    [|destruct (block_not_Undefined rand fuel g2); [lia|done]].
  pose proof (adv_length _ _ (proj1 (block_advance _ _ _ _ H3))) as L3.
  apply last_block_not_Undefined. lia.
Qed.

Lemma calls_not_Undefined (rand : nat → N) (n fuel : nat) (g : Globals) :
  240 ≤ length (sphere g) → calls rand n fuel g ≠ Undefined.
Proof.
  intros Hlen. induction n as [|n IH]; simpl; [discriminate|].
  destruct (calls rand n fuel g) as [g'| |] eqn:Hn; simpl; try done.
  apply sceneRender_not_Undefined.
  apply calls_renders, renders_advance in Hn. rewrite (adv_length _ _ Hn). done.
Qed.

(** From the empty set and a 720-vertex array, a state reached by 60 calls
    holds all of [0, 240). *)
Lemma renders_60_full (rand : nat → N) (g g' : Globals) :
  changed_indeces g = ∅ → length (sphere g) = 720 → renders rand g 60 g' →
  drawable ⊆ changed_indeces g' ∧ guard g' = true.
Proof.
  intros Hempty Hlen Hr.
  destruct (renders_count _ _ _ _ Hempty ltac:(lia) Hr) as [Hs _].
  destruct (renders_drawable _ _ _ _ (empty_drawable _ Hempty) Hr)
    as [Hsub _].
  pose proof (adv_length _ _ (renders_advance _ _ _ _ Hr)) as Hl.
  split.
  - assert (changed_indeces g' ≡ drawable) as Heq.
    { apply set_subseteq_size_equiv; [exact Hsub|]. rewrite size_drawable. lia. }
    intros i Hi. by apply Heq.
  - apply guard_true. lia.
Qed.

(** C2.  From the empty set and 720 vertices the calls do not get to 180:
    a run of [n] calls that all return has [n ≤ 60], holds [4 n] indices
    and is not complete; after 60 the next call never returns, whatever
    [rand()] gives and however long it runs, so 61 calls or more never
    return either. *)
Theorem renders_at_most_60 (rand : nat → N) (g : Globals) (n : nat) (g' : Globals) :
  changed_indeces g = ∅ → length (sphere g) = 720 → renders rand g n g' →
  n ≤ 60 ∧
  size (changed_indeces g') = 4 * n ∧
  guard g' = true ∧
  (n = 60 → ∀ fuel, sceneRender rand fuel g' = Spin) ∧
  (∀ fuel m, 60 < m → calls rand m fuel g = Spin).
Proof.
  intros Hempty Hlen Hr.
  destruct (renders_count _ _ _ _ Hempty ltac:(lia) Hr) as [Hs _].
  destruct (renders_drawable _ _ _ _ (empty_drawable _ Hempty) Hr)
    as [_ Hle].
  pose proof (adv_length _ _ (renders_advance _ _ _ _ Hr)) as Hl.
  split; [lia|]. split; [done|]. split; [apply guard_true; lia|]. split.
  - intros -> fuel.
    destruct (renders_60_full _ _ _ Hempty Hlen Hr) as [Hfull Hg].
    by apply sceneRender_Spin.
  - intros fuel m Hm.
    assert (H61 : calls rand 61 fuel g = Spin).
    { rewrite calls_S.
      destruct (calls rand 60 fuel g) as [g60| |] eqn:H60; simpl; [|done|].
      - apply calls_renders in H60.
        destruct (renders_60_full _ _ _ Hempty Hlen H60) as [Hfull Hg].
        by apply sceneRender_Spin.
      - destruct (calls_not_Undefined rand 60 fuel g); [lia|done]. }
    replace m with (61 + (m - 61)) by lia.
    induction (m - 61) as [|d IH]; [by rewrite Nat.add_0_r|].
    rewrite Nat.add_succ_r, calls_S, IH. reflexivity.
Qed.

Lemma calls_60_counting :
  calls rand_counting 60 3 (initial mesh_720) = Ret after_60_calls.
Proof. vm_compute. reflexivity. Qed.

Lemma after_60_calls_full : drawable ⊆ changed_indeces after_60_calls.
Proof.
  apply (bool_decide_eq_true_1 (drawable ⊆ changed_indeces after_60_calls)).
  vm_compute. reflexivity.
Qed.

(** With [rand()] counting up, 60 calls on the fresh mesh return, with 240
    indices in the set. *)
Lemma renders_at_most_60_witness :
  changed_indeces (initial mesh_720) = ∅ ∧
  length (sphere (initial mesh_720)) = 720 ∧
  renders rand_counting (initial mesh_720) 60 after_60_calls ∧
  60 ≤ 60 ∧
  size (changed_indeces after_60_calls) = 4 * 60 ∧
  guard after_60_calls = true ∧
  (60 = 60 → ∀ fuel, sceneRender rand_counting fuel after_60_calls = Spin) ∧
  (∀ fuel m, 60 < m → calls rand_counting m fuel (initial mesh_720) = Spin).
Proof.
  assert (Hr : renders rand_counting (initial mesh_720) 60 after_60_calls).
  { apply (calls_renders rand_counting 60 3), calls_60_counting. }
  split; [reflexivity|]. split; [vm_compute; reflexivity|]. split; [exact Hr|].
  apply (renders_at_most_60 rand_counting (initial mesh_720) 60 after_60_calls).
  - reflexivity.
  - vm_compute. reflexivity.
  - exact Hr.
Defined.

(** C3.  When the set holds every index below 240 and the guard still holds
    (the set is short of the 720 indices), the rejection loop never leaves:
    for every sequence [rand()] may give and every amount of fuel it is still
    running, and so is the call. *)
Theorem draw_loop_never_leaves (rand : nat → N) (fuel : nat) (g : Globals) :
  drawable ⊆ changed_indeces g → guard g = true →
  draw_loop rand fuel (changed_indeces g) (S (rand_calls g)) = Spin ∧
  block rand fuel g = Spin ∧
  sceneRender rand fuel g = Spin.
Proof.
  intros Hfull Hg. split; [by apply draw_loop_Spin|]. split.
  - unfold block, recolor. rewrite Hg. by rewrite draw_loop_Spin.
  - by apply sceneRender_Spin.
Qed.

(** The program reaches such a state: 60 calls on the fresh 720-vertex mesh,
    [rand()] counting up.  The set then holds 240 of the 720 indices. *)
Lemma draw_loop_never_leaves_witness :
  calls rand_counting 60 3 (initial mesh_720) = Ret after_60_calls ∧
  size (changed_indeces after_60_calls) = 240 ∧
  length (sphere after_60_calls) = 720 ∧
  drawable ⊆ changed_indeces after_60_calls ∧
  guard after_60_calls = true ∧
  draw_loop rand_counting 1000
    (changed_indeces after_60_calls) (S (rand_calls after_60_calls)) = Spin ∧
  block rand_counting 1000 after_60_calls = Spin ∧
  sceneRender rand_counting 1000 after_60_calls = Spin.
Proof.
  pose proof after_60_calls_full as Hfull.
  assert (Hg : guard after_60_calls = true) by (vm_compute; reflexivity).
  split; [exact calls_60_counting|]. split; [vm_compute; reflexivity|].
  split; [vm_compute; reflexivity|]. split; [exact Hfull|]. split; [exact Hg|].
  exact (draw_loop_never_leaves rand_counting 1000 after_60_calls Hfull Hg).
Defined.

(** C4.  From the empty set and 720 vertices, whatever number of calls
    return: every index in the set is in [0, 240), the vertices 240 to 719
    are as at the start, the set holds at most 240 indices, and its size is
    not 720: the guard still holds, the animation is not complete. *)
Theorem renders_stay_below_240 (rand : nat → N) (g : Globals) (n : nat) (g' : Globals) :
  changed_indeces g = ∅ → length (sphere g) = 720 → renders rand g n g' →
  (∀ i, i ∈ changed_indeces g' → (0 ≤ i < 240)%Z) ∧
  (∀ j, 240 ≤ j → sphere g' !! j = sphere g !! j) ∧
  size (changed_indeces g') ≤ 240 ∧
  size (changed_indeces g') ≠ 720 ∧
  length (sphere g') = 720 ∧
  guard g' = true.
Proof.
  intros Hempty Hlen Hr.
  destruct (renders_drawable _ _ _ _ (empty_drawable _ Hempty) Hr)
    as [Hsub Hle].
  pose proof (renders_advance _ _ _ _ Hr) as A.
  pose proof (adv_length _ _ A) as Hl.
  split; [intros i Hi; by apply elem_of_drawable, Hsub|].
  split; [|split; [done|split; [lia|split; [lia|apply guard_true; lia]]]].
  intros j Hj. apply (adv_old _ _ A). left. intros Hin.
  apply Hsub, elem_of_drawable in Hin. lia.
Qed.

Lemma renders_stay_below_240_witness :
  changed_indeces (initial mesh_720) = ∅ ∧
  length (sphere (initial mesh_720)) = 720 ∧
  renders rand_counting (initial mesh_720) 60 after_60_calls ∧
  (∀ i, i ∈ changed_indeces after_60_calls → (0 ≤ i < 240)%Z) ∧
  (∀ j, 240 ≤ j → sphere after_60_calls !! j = sphere (initial mesh_720) !! j) ∧
  size (changed_indeces after_60_calls) ≤ 240 ∧
  size (changed_indeces after_60_calls) ≠ 720 ∧
  length (sphere after_60_calls) = 720 ∧
  guard after_60_calls = true.
Proof.
  assert (Hr : renders rand_counting (initial mesh_720) 60 after_60_calls).
  { apply (calls_renders rand_counting 60 3), calls_60_counting. }
  split; [reflexivity|]. split; [vm_compute; reflexivity|]. split; [exact Hr|].
  apply (renders_stay_below_240 rand_counting (initial mesh_720) 60 after_60_calls).
  - reflexivity.
  - vm_compute. reflexivity.
  - exact Hr.
Defined.

(** ** Where a call stops and where it clears the flag *)






(** ** The colour selection of the main loop *)

Lemma chosen_color_cases (buttons : Z) :
  chosen_color buttons = 0%Z ∨ chosen_color buttons = 1%Z ∨
  chosen_color buttons = 2%Z.
Proof.
  unfold chosen_color. repeat destruct (pressed _ _); auto.
Qed.

(** The input chain clears the set exactly when the selection differs from
    the one of the iteration before; it writes nothing else the animation
    reads, apart from the target colour. *)
Lemma before_render_fields (p : Pad) (g : Globals) :
  sphere (before_render p g) = sphere g ∧
  rand_calls (before_render p g) = rand_calls g ∧
  prev_color (before_render p g) = prev_color g ∧
  selected_color (before_render p g) = chosen_color (buttons_state p) ∧
  color (before_render p g) = palette (chosen_color (buttons_state p)) ∧
  changed_indeces (before_render p g)
  = (if decide (prev_color g = chosen_color (buttons_state p))
     then changed_indeces g else ∅).
Proof.
  unfold before_render, select, apply_selected_color, palette. simpl.
  destruct (chosen_color_cases (buttons_state p)) as [->|[->| ->]];
    case_bool_decide; case_decide; try done; simpl; repeat split; done.
Qed.

Lemma select_fields (c : Z) (g : Globals) :
  sphere (select c g) = sphere g ∧
  color (select c g) = color g ∧
  prev_color (select c g) = prev_color g ∧
  changed_indeces (select c g)
  = (if decide (prev_color g = c) then changed_indeces g else ∅).
Proof.
  unfold select. simpl. case_bool_decide; case_decide; done.
Qed.

Lemma frame_Ret (rand : nat → N) (fuel : nat) (p : Pad) (g g' : Globals) :
  frame rand fuel p g = Ret g' →
  ∃ g1, sceneRender rand fuel (before_render p g) = Ret g1 ∧
        g' = set_prev_color (selected_color g1) g1.
Proof.
  unfold frame.
  destruct (sceneRender _ _ _) as [g1| |]; simpl; try discriminate.
  intros [= <-]. eauto.
Qed.





(** C6.  Over one iteration of the main loop on a 720-vertex mesh: the
    size of the set stays at most 720; the input chain leaves the set alone
    when the selection is the previous one and empties it (size 0) when the
    selection changed; from there the call to [sceneRender] never makes the
    set smaller.  So the size only goes down by a clear. *)
Theorem changed_indeces_size_bounded_monotone
    (rand : nat → N) (fuel : nat) (p : Pad) (g g' : Globals) :
  length (sphere g) = 720 → size (changed_indeces g) ≤ 720 →
  frame rand fuel p g = Ret g' →
  length (sphere g') = 720 ∧
  size (changed_indeces g') ≤ 720 ∧
  (prev_color g = chosen_color (buttons_state p) →
   changed_indeces (before_render p g) = changed_indeces g ∧
   size (changed_indeces g) ≤ size (changed_indeces g')) ∧
  (prev_color g ≠ chosen_color (buttons_state p) →
   size (changed_indeces (before_render p g)) = 0) ∧
  size (changed_indeces (before_render p g)) ≤ size (changed_indeces g').
Proof.
  intros Hlen Hsize Hf.
  destruct (frame_Ret _ _ _ _ _ Hf) as (g1 & Hcall & ->). simpl.
  destruct (before_render_fields p g) as (Hs & _ & _ & _ & _ & Hc).
  destruct (sceneRender_size _ _ _ _ Hcall) as [[Hmono _] Hbound].
  pose proof (adv_length _ _ (sceneRender_advance _ _ _ _ Hcall)) as Hl.
  rewrite Hs in Hl, Hbound.
  assert (size (changed_indeces (before_render p g)) ≤ size (changed_indeces g))
    as Hle.
  { rewrite Hc. case_decide; [done|]. rewrite size_empty. lia. }
  split; [lia|]. split; [lia|]. split; [|split; [|done]].
  - intros Heq. rewrite Hc in Hmono |- *. rewrite decide_True in * by done.
    done.
  - intros Hne. rewrite Hc. rewrite decide_False by done. apply size_empty.
Qed.

(** Three iterations on the fresh mesh with [rand()] counting up.  First Up
    is held: the selection goes from 0 to 2.  From the state that leaves,
    with four indices in the set: Up held again, the selection stays, the
    set is kept and grows from 4 to 8; or nothing held, the selection goes
    back to 0, the set is emptied (4 to 0) and the call brings it to 4. *)
Lemma changed_indeces_size_bounded_monotone_witness :
  (length (sphere (initial mesh_720)) = 720 ∧
   size (changed_indeces (initial mesh_720)) ≤ 720 ∧
   frame rand_counting 2 (mkPad HidNpadButton_Up 0) (initial mesh_720)
   = Ret after_first_frame ∧
   length (sphere after_first_frame) = 720 ∧
   size (changed_indeces after_first_frame) = 4) ∧
  (frame rand_counting 2 (mkPad HidNpadButton_Up 0) after_first_frame
   = Ret after_second_frame_up ∧
   prev_color after_first_frame
   = chosen_color (buttons_state (mkPad HidNpadButton_Up 0)) ∧
   length (sphere after_second_frame_up) = 720 ∧
   size (changed_indeces after_second_frame_up) ≤ 720 ∧
   changed_indeces (before_render (mkPad HidNpadButton_Up 0) after_first_frame)
   = changed_indeces after_first_frame ∧
   size (changed_indeces after_first_frame)
   ≤ size (changed_indeces after_second_frame_up) ∧
   size (changed_indeces after_second_frame_up) = 8) ∧
  (frame rand_counting 2 (mkPad 0 0) after_first_frame
   = Ret after_second_frame_idle ∧
   prev_color after_first_frame ≠ chosen_color (buttons_state (mkPad 0 0)) ∧
   length (sphere after_second_frame_idle) = 720 ∧
   size (changed_indeces after_second_frame_idle) ≤ 720 ∧
   size (changed_indeces (before_render (mkPad 0 0) after_first_frame)) = 0 ∧
   size (changed_indeces (before_render (mkPad 0 0) after_first_frame))
   ≤ size (changed_indeces after_second_frame_idle) ∧
   size (changed_indeces after_second_frame_idle) = 4).
Proof.
  assert (Hlen0 : length (sphere (initial mesh_720)) = 720)
    by (vm_compute; reflexivity).
  assert (Hsize0 : size (changed_indeces (initial mesh_720)) ≤ 720)
    by (change (size (∅ : gset Z) ≤ 720); rewrite size_empty; lia).
  assert (Hf0 : frame rand_counting 2 (mkPad HidNpadButton_Up 0)
                  (initial mesh_720) = Ret after_first_frame)
    by (vm_compute; reflexivity).
  assert (Hsize1 : size (changed_indeces after_first_frame) = 4)
    by (vm_compute; reflexivity).
  destruct (changed_indeces_size_bounded_monotone rand_counting 2
              (mkPad HidNpadButton_Up 0) (initial mesh_720) after_first_frame
              Hlen0 Hsize0 Hf0) as (Hlen1 & _).
  assert (Hup : frame rand_counting 2 (mkPad HidNpadButton_Up 0)
                  after_first_frame = Ret after_second_frame_up)
    by (vm_compute; reflexivity).
  assert (Hidle : frame rand_counting 2 (mkPad 0 0) after_first_frame
                  = Ret after_second_frame_idle)
    by (vm_compute; reflexivity).
  assert (Hsame : prev_color after_first_frame
                  = chosen_color (buttons_state (mkPad HidNpadButton_Up 0)))
    by (vm_compute; reflexivity).
  assert (Hother : prev_color after_first_frame
                   ≠ chosen_color (buttons_state (mkPad 0 0)))
    by (vm_compute; discriminate).
  split; [|split].
  - split; [exact Hlen0|]. split; [exact Hsize0|]. split; [exact Hf0|].
    split; [exact Hlen1|exact Hsize1].
  - destruct (changed_indeces_size_bounded_monotone rand_counting 2
                (mkPad HidNpadButton_Up 0) after_first_frame
                after_second_frame_up Hlen1 ltac:(rewrite Hsize1; lia) Hup)
      as (Hl & Hs & Hkept & _ & _).
    destruct (Hkept Hsame) as [Hk1 Hk2].
    split; [exact Hup|]. split; [exact Hsame|]. split; [exact Hl|].
    split; [exact Hs|]. split; [exact Hk1|]. split; [exact Hk2|].
    vm_compute. reflexivity.
  - destruct (changed_indeces_size_bounded_monotone rand_counting 2
                (mkPad 0 0) after_first_frame
                after_second_frame_idle Hlen1 ltac:(rewrite Hsize1; lia) Hidle)
      as (Hl & Hs & _ & Hcleared & Hgrow).
    split; [exact Hidle|]. split; [exact Hother|]. split; [exact Hl|].
    split; [exact Hs|]. split; [exact (Hcleared Hother)|]. split; [exact Hgrow|].
    vm_compute. reflexivity.
Defined.

(** ** The indices drawn in a pass *)

Lemma recolors_fresh (rand : nat → N) (g : Globals) (l : list Z) (g' : Globals) :
  recolors rand g l g' →
  NoDup l ∧
  (∀ i, i ∈ l → i ∉ changed_indeces g) ∧
  changed_indeces g' = list_to_set l ∪ changed_indeces g.
Proof.
  induction 1 as [g|g l g' _ IH|g l g' fuel i n g'' _ IH Hg Hd Hp].
  - split; [constructor|]. split; [set_solver|]. set_solver.
  - exact IH.
  - destruct IH as (Hnd & Hnew & Heq).
    destruct (draw_loop_Ret _ _ _ _ _ _ Hd) as (Hout & _).
    destruct (paint_Ret _ _ _ _ Hp) as (_ & v & _ & ->). simpl.
    rewrite Heq in Hout |- *.
    split; [|split].
    + apply NoDup_app. split; [done|]. split; [|apply NoDup_singleton].
      intros j Hj ->%list_elem_of_singleton. set_solver.
    + intros j [Hj| ->%list_elem_of_singleton]%elem_of_app; [auto|set_solver].
    + rewrite list_to_set_app_L. set_solver.
Qed.

Lemma block_recolors (rand : nat → N) (fuel : nat) g l g1 g2 :
  recolors rand g l g1 → block rand fuel g1 = Ret g2 →
  ∃ l', recolors rand g l' g2.
Proof.
  intros Hr Hb.
  destruct (block_Ret _ _ _ _ Hb) as [[_ ->]|(Hg & i & n & Hd & Hp)];
    [eauto|].
  exists (l ++ [i]). econstructor; eauto.
Qed.

Lemma last_block_recolors (rand : nat → N) (fuel : nat) g l g1 g2 :
  recolors rand g l g1 → last_block rand fuel g1 = Ret g2 →
  ∃ l', recolors rand g l' g2.
Proof.
  intros Hr Hb.
  destruct (last_block_Ret _ _ _ _ Hb) as [[_ ->]|(Hg & i & n & Hd & Hp)].
  - exists l. by constructor.
  - exists (l ++ [i]). econstructor; eauto.
Qed.

Lemma renders_recolors (rand : nat → N) (g : Globals) (n : nat) (g' : Globals) :
  renders rand g n g' → ∃ l, recolors rand g l g'.
Proof.
  induction 1 as [g|g n g' fuel g'' _ [l Hl] Hcall].
  - exists []. constructor.
  - destruct (sceneRender_Ret _ _ _ _ Hcall)
      as (g1 & g2 & g3 & H1 & H2 & H3 & H4).
    destruct (block_recolors _ _ _ _ _ _ Hl H1) as [l1 Hl1].
    destruct (block_recolors _ _ _ _ _ _ Hl1 H2) as [l2 Hl2].
    destruct (block_recolors _ _ _ _ _ _ Hl2 H3) as [l3 Hl3].
    exact (last_block_recolors _ _ _ _ _ _ Hl3 H4).
Qed.

(** C7.  Over any number of calls with no clear in between, the indices the
    loops were left with, in order, have no repetition and none of them was
    in the set at the start; the set at the end is the set at the start
    together with exactly these indices, one more element for each.  A
    vertex recoloured once is not written again in the pass, and inserting
    an index the set holds would leave the set as it is. *)
Theorem no_index_recolored_twice
    (rand : nat → N) (g : Globals) (n : nat) (g' : Globals) :
  renders rand g n g' →
  (∃ l, recolors rand g l g' ∧
        NoDup l ∧
        (∀ i, i ∈ l → i ∉ changed_indeces g) ∧
        changed_indeces g' = list_to_set l ∪ changed_indeces g ∧
        size (changed_indeces g') = length l + size (changed_indeces g)) ∧
  (∀ j, Z.of_nat j ∈ changed_indeces g → sphere g' !! j = sphere g !! j) ∧
  (∀ i, i ∈ changed_indeces g' → {[ i ]} ∪ changed_indeces g' = changed_indeces g').
Proof.
  intros Hr. split; [|split].
  - destruct (renders_recolors _ _ _ _ Hr) as [l Hl].
    destruct (recolors_fresh _ _ _ _ Hl) as (Hnd & Hnew & Heq).
    exists l. repeat split; try done.
    rewrite Heq, size_union, size_list_to_set by (done || set_solver).
    reflexivity.
  - intros j Hj. apply (adv_old _ _ (renders_advance _ _ _ _ Hr)). by right.
  - intros i Hi. set_solver.
Qed.

Lemma no_index_recolored_twice_witness :
  renders rand_counting (initial mesh_720) 60 after_60_calls ∧
  (∃ l, recolors rand_counting (initial mesh_720) l after_60_calls ∧
        NoDup l ∧
        (∀ i, i ∈ l → i ∉ changed_indeces (initial mesh_720)) ∧
        changed_indeces after_60_calls
        = list_to_set l ∪ changed_indeces (initial mesh_720) ∧
        size (changed_indeces after_60_calls)
        = length l + size (changed_indeces (initial mesh_720))) ∧
  (∀ j, Z.of_nat j ∈ changed_indeces (initial mesh_720) →
        sphere after_60_calls !! j = sphere (initial mesh_720) !! j) ∧
  (∀ i, i ∈ changed_indeces after_60_calls →
        {[ i ]} ∪ changed_indeces after_60_calls = changed_indeces after_60_calls).
Proof.
  assert (Hr : renders rand_counting (initial mesh_720) 60 after_60_calls).
  { apply (calls_renders rand_counting 60 3), calls_60_counting. }
  split; [exact Hr|].
  exact (no_index_recolored_twice rand_counting (initial mesh_720) 60
           after_60_calls Hr).
Defined.

(** The draw itself: the index the loop is left with is not in the set. *)
Lemma draw_loop_fresh (rand : nat → N) (fuel : nat) (s : gset Z) n i n' :
  draw_loop rand fuel s n = Ret (i, n') → i ∉ s.
Proof. intros H. by destruct (draw_loop_Ret _ _ _ _ _ _ H). Qed.

(** ** Colours of the vertices in the set *)

(** Each vertex is as before or has been given the target colour. *)
Lemma advance_vertex (g g' : Globals) (j : nat) :
  advance g g' →
  sphere g' !! j = sphere g !! j ∨
  ∃ v, sphere g !! j = Some v ∧
       sphere g' !! j = Some (Vertex.mk (Vertex.position v) (color g)).
Proof.
  intros A.
  destruct (decide (Z.of_nat j ∈ changed_indeces g')) as [Hin|Hout];
    [|left; apply (adv_old _ _ A); by left].
  destruct (decide (Z.of_nat j ∈ changed_indeces g)) as [Hin0|Hout0];
    [left; apply (adv_old _ _ A); by right|].
  right. destruct (adv_new _ _ A _ Hin Hout0) as (_ & v & Hv & Hv').
  rewrite Nat2Z.id in Hv, Hv'. eauto.
Qed.

Lemma advance_painted (g g' : Globals) : advance g g' → painted g → painted g'.
Proof.
  intros A Hp i Hi. rewrite (adv_color _ _ A).
  destruct (decide (i ∈ changed_indeces g)) as [Hin|Hout].
  - destruct (Hp i Hin) as (v & Hv & Hc).
    destruct (advance_vertex g g' (Z.to_nat i) A) as [Heq|(v' & Hv' & Hnew)].
    + exists v. by rewrite Heq.
    + eexists. split; [exact Hnew|done].
  - destruct (adv_new _ _ A i Hi Hout) as (_ & v & _ & Hv').
    eexists. split; [exact Hv'|done].
Qed.

Lemma advance_changed_only (g g' : Globals) (j : nat) :
  advance g g' → sphere g' !! j ≠ sphere g !! j →
  Z.of_nat j ∈ changed_indeces g' ∧ Z.of_nat j ∉ changed_indeces g.
Proof.
  intros A Hne.
  destruct (decide (Z.of_nat j ∈ changed_indeces g')) as [Hin|Hout];
    [|destruct Hne; apply (adv_old _ _ A); by left].
  destruct (decide (Z.of_nat j ∈ changed_indeces g)) as [Hin0|Hout0];
    [destruct Hne; apply (adv_old _ _ A); by right|done].
Qed.

(** C8.  A call that finds every index of the set on a vertex of the target
    colour leaves it so.  The target colour is the same after the call; each
    index the call inserted names a vertex that now carries it; and a vertex
    whose entry differs after the call has its index in the set then and
    did not have it before: only the vertices inserted in this call were
    written. *)
Theorem sceneRender_keeps_painted
    (rand : nat → N) (fuel : nat) (g g' : Globals) :
  painted g → sceneRender rand fuel g = Ret g' →
  painted g' ∧
  color g' = color g ∧
  (∀ i, i ∈ changed_indeces g' → i ∉ changed_indeces g →
        ∃ v, sphere g' !! Z.to_nat i = Some v ∧ Vertex.color v = color g) ∧
  (∀ j, sphere g' !! j ≠ sphere g !! j →
        Z.of_nat j ∈ changed_indeces g' ∧ Z.of_nat j ∉ changed_indeces g).
Proof.
  intros Hp Hcall. pose proof (sceneRender_advance _ _ _ _ Hcall) as A.
  split; [by apply (advance_painted g)|]. split; [apply (adv_color _ _ A)|].
  split.
  - intros i Hi Hout. destruct (adv_new _ _ A i Hi Hout) as (_ & v & _ & Hv').
    eexists. split; [exact Hv'|done].
  - intros j. by apply advance_changed_only.
Qed.

(** The state after one call on the fresh mesh, [rand()] counting up. *)
Lemma sceneRender_keeps_painted_witness :
  painted (initial mesh_720) ∧
  sceneRender rand_counting 1 (initial mesh_720) = Ret after_first_call ∧
  painted after_first_call ∧
  color after_first_call = color (initial mesh_720) ∧
  (∀ i, i ∈ changed_indeces after_first_call →
        i ∉ changed_indeces (initial mesh_720) →
        ∃ v, sphere after_first_call !! Z.to_nat i = Some v ∧
             Vertex.color v = color (initial mesh_720)) ∧
  (∀ j, sphere after_first_call !! j ≠ sphere (initial mesh_720) !! j →
        Z.of_nat j ∈ changed_indeces after_first_call ∧
        Z.of_nat j ∉ changed_indeces (initial mesh_720)).
Proof.
  assert (Hp : painted (initial mesh_720)) by (intros i Hi; set_solver).
  assert (Hcall : sceneRender rand_counting 1 (initial mesh_720)
                  = Ret after_first_call) by (vm_compute; reflexivity).
  split; [exact Hp|]. split; [exact Hcall|].
  exact (sceneRender_keeps_painted rand_counting 1 (initial mesh_720)
           after_first_call Hp Hcall).
Defined.

(** The whole loop: between iterations the target colour is the one of the
    previous selection, so it changes only in an iteration that clears the
    set, and every index in the set names a vertex of the target colour. *)
Lemma initial_consistent (mesh : list Vertex.t) : consistent (initial mesh).
Proof.
  split; simpl; [intros i Hi; set_solver|done|by left|apply empty_subseteq].
Qed.

Lemma before_render_consistent (p : Pad) (g : Globals) :
  consistent g →
  painted (before_render p g) ∧
  changed_indeces (before_render p g) ⊆ drawable ∧
  (color (before_render p g) ≠ color g →
   changed_indeces (before_render p g) = ∅).
Proof.
  intros [Hp Hc _ Hd].
  destruct (before_render_fields p g) as (Hs & _ & _ & _ & Hcol & Hch).
  case_decide as Hsel.
  - assert (color (before_render p g) = color g) as Heq by congruence.
    split; [|split; [by rewrite Hch|done]].
    intros i Hi. rewrite Hs, Heq. apply Hp. by rewrite <- Hch.
  - split; [|split; [rewrite Hch; apply empty_subseteq|done]].
    intros i Hi. rewrite Hch in Hi. set_solver.
Qed.

Lemma frame_consistent (rand : nat → N) (fuel : nat) (p : Pad) (g g' : Globals) :
  consistent g → frame rand fuel p g = Ret g' → consistent g'.
Proof.
  intros Hc Hf. destruct (frame_Ret _ _ _ _ _ Hf) as (g1 & Hcall & ->).
  destruct (before_render_consistent p g Hc) as (Hp & Hd & _).
  destruct (before_render_fields p g) as (_ & _ & _ & Hsel & Hcol & _).
  pose proof (sceneRender_advance _ _ _ _ Hcall) as A.
  split; simpl.
  - exact (advance_painted _ _ A Hp).
  - by rewrite (adv_color _ _ A), (adv_selected _ _ A), Hsel.
  - rewrite (adv_selected _ _ A), Hsel. apply chosen_color_cases.
  - intros i Hi.
    destruct (decide (i ∈ changed_indeces (before_render p g))) as [|Hout];
      [by apply Hd|].
    apply elem_of_drawable. by destruct (adv_new _ _ A i Hi Hout).
Qed.

Lemma main_loop_consistent
    (rand : nat → N) (fuel : nat) (pads : list Pad) (g g' : Globals) :
  consistent g → main_loop rand fuel pads g = Ret g' → consistent g'.
Proof.
  revert g. induction pads as [|p pads IH]; intros g Hc; simpl.
  - by intros [= <-].
  - destruct (leaves p).
    + intros [= <-]. destruct Hc as [Hp Hcol Hprev Hd].
      destruct (select_fields (chosen_color (buttons_state p)) g)
        as (Hs & Hcl & Hpr & Hch).
      split.
      * intros i Hi. rewrite Hs, Hcl. rewrite Hch in Hi.
        case_decide; [by apply Hp|set_solver].
      * by rewrite Hcl, Hpr.
      * by rewrite Hpr.
      * rewrite Hch. case_decide; [done|apply empty_subseteq].
    + destruct (frame rand fuel p g) as [g1| |] eqn:Hf; simpl; try discriminate.
      apply IH. by apply (frame_consistent rand fuel p g).
Qed.

(** ** What a pass leaves alone *)

(** C9.  Over any number of calls with no clear in between (one call, or
    the calls that follow a reset with their target colour): the array keeps
    its length and every vertex its position; a vertex whose index the calls
    did not insert is entirely as before, whatever colour an earlier pass
    gave it; a vertex whose index they inserted has the target colour of
    these calls and its old position. *)
Theorem renders_touch_selected_colors_only
    (rand : nat → N) (g : Globals) (n : nat) (g' : Globals) :
  renders rand g n g' →
  length (sphere g') = length (sphere g) ∧
  (∀ j, Vertex.position <$> sphere g' !! j = Vertex.position <$> sphere g !! j) ∧
  (∀ j, Z.of_nat j ∉ changed_indeces g' ∨ Z.of_nat j ∈ changed_indeces g →
        sphere g' !! j = sphere g !! j) ∧
  (∀ i, i ∈ changed_indeces g' → i ∉ changed_indeces g →
        ∃ v, sphere g !! Z.to_nat i = Some v ∧
             sphere g' !! Z.to_nat i
             = Some (Vertex.mk (Vertex.position v) (color g))).
Proof.
  intros Hr. pose proof (renders_advance _ _ _ _ Hr) as A.
  split; [apply (adv_length _ _ A)|]. split; [|split].
  - intros j. destruct (advance_vertex g g' j A) as [->|(v & -> & ->)]; done.
  - apply (adv_old _ _ A).
  - intros i Hi Hout. by destruct (adv_new _ _ A i Hi Hout).
Qed.

(** One call painted four vertices red; Up is then held, which clears the
    set and makes blue the target; the next call paints four other
    vertices blue and leaves the red ones red. *)
Lemma renders_touch_selected_colors_only_witness :
  renders rand_counting after_reset 1 after_reset_call ∧
  sphere after_reset_call !! 1 = sphere after_first_call !! 1 ∧
  Vertex.color <$> sphere after_reset_call !! 1 = Some (palette 0) ∧
  Vertex.color <$> sphere after_reset_call !! 9 = Some (palette 2) ∧
  length (sphere after_reset_call) = length (sphere after_reset) ∧
  (∀ j, Vertex.position <$> sphere after_reset_call !! j
        = Vertex.position <$> sphere after_reset !! j) ∧
  (∀ j, Z.of_nat j ∉ changed_indeces after_reset_call
        ∨ Z.of_nat j ∈ changed_indeces after_reset →
        sphere after_reset_call !! j = sphere after_reset !! j) ∧
  (∀ i, i ∈ changed_indeces after_reset_call →
        i ∉ changed_indeces after_reset →
        ∃ v, sphere after_reset !! Z.to_nat i = Some v ∧
             sphere after_reset_call !! Z.to_nat i
             = Some (Vertex.mk (Vertex.position v) (color after_reset))).
Proof.
  assert (Hr : renders rand_counting after_reset 1 after_reset_call).
  { apply (calls_renders rand_counting 1 1). vm_compute. reflexivity. }
  split; [exact Hr|]. split; [vm_compute; reflexivity|].
  split; [vm_compute; reflexivity|]. split; [vm_compute; reflexivity|].
  exact (renders_touch_selected_colors_only rand_counting after_reset 1
           after_reset_call Hr).
Defined.

(** ** The flag *)

Lemma on_result_bind (f : Globals → result Globals) (r1 r2 : result Globals) :
  on_result without_flag r1 = on_result without_flag r2 →
  (∀ a b, without_flag a = without_flag b →
          on_result without_flag (f a) = on_result without_flag (f b)) →
  on_result without_flag (r1 ≫= f) = on_result without_flag (r2 ≫= f).
Proof.
  intros H Hf. destruct r1 as [a| |], r2 as [b| |]; try discriminate;
    try reflexivity.
  apply Hf. unfold on_result in H. congruence.
Qed.

Lemma without_flag_set (b : bool) (g : Globals) :
  without_flag (set_is_changing_color b g) = without_flag g.
Proof. reflexivity. Qed.

Lemma recolor_without_flag (rand : nat → N) (fuel : nat) (a b : Globals) :
  without_flag a = without_flag b →
  on_result without_flag (recolor rand fuel a)
  = on_result without_flag (recolor rand fuel b).
Proof.
  destruct a, b. unfold without_flag, set_is_changing_color. simpl.
  intros [= -> -> -> -> -> ->]. unfold recolor. simpl.
  destruct (draw_loop _ _ _ _) as [[i n]| |]; simpl; try reflexivity.
  unfold paint. simpl.
  destruct (store_color _ _ _) as [m1| |]; simpl; try reflexivity.
  destruct (store_color _ _ _) as [m2| |]; simpl; try reflexivity.
  destruct (store_color _ _ _) as [m3| |]; simpl; reflexivity.
Qed.

Lemma guard_without_flag (a b : Globals) :
  without_flag a = without_flag b → guard a = guard b.
Proof.
  destruct a, b. unfold without_flag, set_is_changing_color. simpl.
  by intros [= -> -> -> -> -> ->].
Qed.

Lemma block_without_flag (rand : nat → N) (fuel : nat) (a b : Globals) :
  without_flag a = without_flag b →
  on_result without_flag (block rand fuel a)
  = on_result without_flag (block rand fuel b).
Proof.
  intros H. unfold block. rewrite (guard_without_flag a b H).
  destruct (guard b); [by apply recolor_without_flag|]. simpl. by rewrite H.
Qed.

Lemma last_block_without_flag (rand : nat → N) (fuel : nat) (a b : Globals) :
  without_flag a = without_flag b →
  on_result without_flag (last_block rand fuel a)
  = on_result without_flag (last_block rand fuel b).
Proof.
  intros H. unfold last_block. rewrite (guard_without_flag a b H).
  destruct (guard b); [by apply recolor_without_flag|]. simpl.
  by rewrite !without_flag_set, H.
Qed.

Lemma sceneRender_without_flag (rand : nat → N) (fuel : nat) (a b : Globals) :
  without_flag a = without_flag b →
  on_result without_flag (sceneRender rand fuel a)
  = on_result without_flag (sceneRender rand fuel b).
Proof.
  intros H. unfold sceneRender.
  apply on_result_bind; [by apply block_without_flag|]. intros a1 b1 H1.
  apply on_result_bind; [by apply block_without_flag|]. intros a2 b2 H2.
  apply on_result_bind; [by apply block_without_flag|]. intros a3 b3 H3.
  by apply last_block_without_flag.
Qed.

Lemma select_without_flag (c : Z) (a b : Globals) :
  without_flag a = without_flag b →
  without_flag (select c a) = without_flag (select c b).
Proof.
  destruct a, b. unfold without_flag, set_is_changing_color. simpl.
  intros [= -> -> -> -> -> ->]. unfold select. simpl.
  case_bool_decide; reflexivity.
Qed.

Lemma before_render_without_flag (p : Pad) (a b : Globals) :
  without_flag a = without_flag b →
  without_flag (before_render p a) = without_flag (before_render p b).
Proof.
  intros H. apply (select_without_flag (chosen_color (buttons_state p))) in H.
  unfold before_render.
  destruct (select _ a), (select _ b).
  unfold without_flag, set_is_changing_color in H. simpl in H.
  injection H as -> -> -> -> -> ->.
  unfold apply_selected_color. simpl.
  repeat destruct (_ =? _)%Z; reflexivity.
Qed.

Lemma frame_without_flag (rand : nat → N) (fuel : nat) (p : Pad) (a b : Globals) :
  without_flag a = without_flag b →
  on_result without_flag (frame rand fuel p a)
  = on_result without_flag (frame rand fuel p b).
Proof.
  intros H. unfold frame.
  apply on_result_bind;
    [by apply sceneRender_without_flag, before_render_without_flag|].
  intros a1 b1 H1. simpl. f_equal.
  destruct a1, b1. unfold without_flag, set_is_changing_color in *. simpl in *.
  by injection H1 as -> -> -> -> -> ->.
Qed.

Lemma main_loop_without_flag
    (rand : nat → N) (fuel : nat) (pads : list Pad) (a b : Globals) :
  without_flag a = without_flag b →
  on_result without_flag (main_loop rand fuel pads a)
  = on_result without_flag (main_loop rand fuel pads b).
Proof.
  revert a b. induction pads as [|p pads IH]; intros a b H; simpl.
  - by rewrite H.
  - destruct (leaves p); simpl.
    + f_equal. by apply select_without_flag.
    + apply on_result_bind; [by apply frame_without_flag|]. apply IH.
Qed.

(** C10.  Whatever value [is_changing_color] has when a call, or the whole
    loop, starts: the outcome is the same (it returns, spins or is undefined
    alike) and, when it returns, every other global (the mesh, the set, the
    colours, the count of [rand()] calls) is the same.  The flag is written
    and never read. *)
Theorem is_changing_color_never_read
    (rand : nat → N) (fuel : nat) (pads : list Pad) (b : bool) (g : Globals) :
  on_result without_flag (sceneRender rand fuel (set_is_changing_color b g))
  = on_result without_flag (sceneRender rand fuel g) ∧
  on_result without_flag (main_loop rand fuel pads (set_is_changing_color b g))
  = on_result without_flag (main_loop rand fuel pads g).
Proof.
  split.
  - apply sceneRender_without_flag, without_flag_set.
  - apply main_loop_without_flag, without_flag_set.
Qed.

(** Over the whole program, whatever the inputs: the set never holds more
    than 240 indices. *)
Lemma main_loop_size
    (rand : nat → N) (fuel : nat) (pads : list Pad) (mesh : list Vertex.t)
    (g : Globals) :
  main_loop rand fuel pads (initial mesh) = Ret g →
  size (changed_indeces g) ≤ 240.
Proof.
  intros H.
  pose proof (main_loop_consistent _ _ _ _ _ (initial_consistent mesh) H) as Hc.
  rewrite <- size_drawable. apply subseteq_size, (cons_drawable _ Hc).
Qed.

(** ** More on the draw *)

Lemma draw_loop_first_fresh (rand : nat → N) (s : gset Z) (k fuel n : nat) :
  (∀ j, j < k → rand_mod_240 rand (n + j) ∈ s) →
  rand_mod_240 rand (n + k) ∉ s →
  k < fuel →
  draw_loop rand fuel s n = Ret (rand_mod_240 rand (n + k), S (n + k)).
Proof.
  revert fuel n. induction k as [|k IH]; intros fuel n Hin Hout Hfuel;
    (destruct fuel as [|fuel]; [lia|]); simpl.
  - rewrite Nat.add_0_r in *. by rewrite decide_False.
  - rewrite decide_True by (specialize (Hin 0 ltac:(lia));
                            by rewrite Nat.add_0_r in Hin).
    replace (n + S k) with (S n + k) in * by lia.
    apply IH; [|done|lia].
    intros j Hj. specialize (Hin (S j) ltac:(lia)).
    by replace (n + S j) with (S n + j) in Hin by lia.
Qed.

(** X1.  A block whose guard holds makes one call of [rand()] and then
    calls it until a value modulo 240 is not in the set: when the next [k]
    values are in the set and the one after is not, and that index is inside
    the array, the block returns (given fuel for [k + 1] rounds of the loop)
    having painted exactly that vertex, inserted exactly that index and made
    [k + 2] calls of [rand()]. *)
Theorem recolor_leaves_at_first_fresh
    (rand : nat → N) (fuel : nat) (g : Globals) (k : nat) (v : Vertex.t) :
  (∀ j, j < k → rand_mod_240 rand (S (rand_calls g) + j) ∈ changed_indeces g) →
  rand_mod_240 rand (S (rand_calls g) + k) ∉ changed_indeces g →
  sphere g !! Z.to_nat (rand_mod_240 rand (S (rand_calls g) + k)) = Some v →
  k < fuel →
  recolor rand fuel g
  = Ret (painted_at (rand_mod_240 rand (S (rand_calls g) + k))
           (rand_calls g + k + 2) v g).
Proof.
  intros Hin Hout Hv Hfuel. unfold recolor.
  rewrite (draw_loop_first_fresh rand _ k fuel _ Hin Hout Hfuel). simpl.
  rewrite (paint_in_bounds _ _ _ v);
    [|apply rand_mod_240_range|exact Hv].
  do 2 f_equal. lia.
Qed.

(** The set holds 1 and 2 and [rand()] counts up: the call of the
    declaration gives 0, the loop rejects 1 and 2 and leaves with 3. *)
Lemma recolor_leaves_at_first_fresh_witness :
  (∀ j, j < 2 →
        rand_mod_240 rand_counting (S (rand_calls one_two_drawn) + j)
        ∈ changed_indeces one_two_drawn) ∧
  (rand_mod_240 rand_counting (S (rand_calls one_two_drawn) + 2)
   ∉ changed_indeces one_two_drawn) ∧
  recolor rand_counting 3 one_two_drawn
  = Ret (painted_at (rand_mod_240 rand_counting (S (rand_calls one_two_drawn) + 2))
           (rand_calls one_two_drawn + 2 + 2) white_vertex one_two_drawn).
Proof.
  assert (Hin : ∀ j, j < 2 →
            rand_mod_240 rand_counting (S (rand_calls one_two_drawn) + j)
            ∈ changed_indeces one_two_drawn).
  { intros [|[|j]] Hj; [| |lia].
    - change (1%Z ∈ ({[ 1%Z; 2%Z ]} : gset Z)). set_solver.
    - change (2%Z ∈ ({[ 1%Z; 2%Z ]} : gset Z)). set_solver. }
  assert (Hout : rand_mod_240 rand_counting (S (rand_calls one_two_drawn) + 2)
                 ∉ changed_indeces one_two_drawn).
  { change (3%Z ∉ ({[ 1%Z; 2%Z ]} : gset Z)). set_solver. }
  split; [exact Hin|]. split; [exact Hout|].
  apply (recolor_leaves_at_first_fresh rand_counting 3 one_two_drawn 2
           white_vertex Hin Hout); [vm_compute; reflexivity|lia].
Defined.

Lemma draw_loop_ext (rand rand' : nat → N) (fuel : nat) (s : gset Z) (n : nat) :
  (∀ m, n ≤ m → rand' m = rand m) →
  draw_loop rand' fuel s n = draw_loop rand fuel s n.
Proof.
  revert n. induction fuel as [|fuel IH]; intros n Hext; simpl; [done|].
  unfold rand_mod_240. rewrite (Hext n) by lia.
  rewrite IH by (intros m Hm; apply Hext; lia). reflexivity.
Qed.

(** X2.  The value of the call [int i = rand() % 240;] at the head of a
    block is never used: two sequences of [rand()] values that differ only
    at that call give the block the same outcome and the same state. *)
Theorem block_ignores_first_rand
    (rand rand' : nat → N) (fuel : nat) (g : Globals) :
  (∀ n, n ≠ rand_calls g → rand' n = rand n) →
  recolor rand' fuel g = recolor rand fuel g ∧
  block rand' fuel g = block rand fuel g ∧
  last_block rand' fuel g = last_block rand fuel g.
Proof.
  intros Hext.
  assert (H : recolor rand' fuel g = recolor rand fuel g).
  { unfold recolor.
    by rewrite (draw_loop_ext rand rand') by (intros m Hm; apply Hext; lia). }
  unfold block, last_block. by rewrite H.
Qed.

Lemma block_ignores_first_rand_witness :
  (∀ n, n ≠ rand_calls (initial mesh_720) →
        rand_counting_from_77 n = rand_counting n) ∧
  rand_counting_from_77 0 ≠ rand_counting 0 ∧
  recolor rand_counting_from_77 1 (initial mesh_720)
  = recolor rand_counting 1 (initial mesh_720) ∧
  block rand_counting_from_77 1 (initial mesh_720)
  = block rand_counting 1 (initial mesh_720) ∧
  last_block rand_counting_from_77 1 (initial mesh_720)
  = last_block rand_counting 1 (initial mesh_720).
Proof.
  assert (Hext : ∀ n, n ≠ rand_calls (initial mesh_720) →
                      rand_counting_from_77 n = rand_counting n).
  { intros [|n] Hn; [by destruct Hn|reflexivity]. }
  split; [exact Hext|]. split; [discriminate|].
  exact (block_ignores_first_rand rand_counting rand_counting_from_77 1
           (initial mesh_720) Hext).
Defined.

(** ** Bounds of the array *)

Lemma frame_not_Undefined (rand : nat → N) (fuel : nat) (p : Pad) (g : Globals) :
  240 ≤ length (sphere g) → frame rand fuel p g ≠ Undefined.
Proof.
  intros Hlen. unfold frame.
  destruct (sceneRender rand fuel (before_render p g)) as [g'| |] eqn:Hcall;
    simpl; try discriminate.
  destruct (sceneRender_not_Undefined rand fuel (before_render p g));
    [|done].
  by destruct (before_render_fields p g) as (-> & _).
Qed.

Lemma frame_length (rand : nat → N) (fuel : nat) (p : Pad) (g g' : Globals) :
  frame rand fuel p g = Ret g' → length (sphere g') = length (sphere g).
Proof.
  intros Hf. destruct (frame_Ret _ _ _ _ _ Hf) as (g1 & Hcall & ->). simpl.
  rewrite (adv_length _ _ (sceneRender_advance _ _ _ _ Hcall)).
  by destruct (before_render_fields p g) as (-> & _).
Qed.

Lemma main_loop_not_Undefined
    (rand : nat → N) (fuel : nat) (pads : list Pad) (g : Globals) :
  240 ≤ length (sphere g) → main_loop rand fuel pads g ≠ Undefined.
Proof.
  revert g. induction pads as [|p pads IH]; intros g Hlen; simpl;
    [discriminate|].
  destruct (leaves p); [discriminate|].
  destruct (frame rand fuel p g) as [g'| |] eqn:Hf; simpl; try discriminate.
  - apply IH. by rewrite (frame_length _ _ _ _ _ Hf).
  - by destruct (frame_not_Undefined rand fuel p g Hlen).
Qed.

(** X3.  When [sphere] has at least 240 vertices, no write
    [sphere[i].color = color] falls outside the array: whatever the inputs
    and whatever [rand()] gives, neither a call of [sceneRender] nor the
    main loop has undefined behaviour; each returns or stays in a loop. *)
Theorem sphere_writes_in_bounds
    (rand : nat → N) (fuel : nat) (pads : list Pad) (g : Globals) :
  240 ≤ length (sphere g) →
  sceneRender rand fuel g ≠ Undefined ∧
  main_loop rand fuel pads g ≠ Undefined.
Proof.
  intros Hlen. split.
  - by apply sceneRender_not_Undefined.
  - by apply main_loop_not_Undefined.
Qed.

Lemma sphere_writes_in_bounds_witness :
  240 ≤ length (sphere (initial mesh_720)) ∧
  sceneRender rand_counting 3 (initial mesh_720) ≠ Undefined ∧
  main_loop rand_counting 3 idle_61 (initial mesh_720) ≠ Undefined.
Proof.
  assert (Hlen : 240 ≤ length (sphere (initial mesh_720)))
    by (apply Nat.leb_le; vm_compute; reflexivity).
  split; [exact Hlen|].
  exact (sphere_writes_in_bounds rand_counting 3 idle_61 (initial mesh_720) Hlen).
Defined.

(** X4.  The draw does not look at the length of [sphere]: when the first
    value of the loop modulo 240 is not in the set and is not below the
    length of the array, the write is out of bounds and the call has
    undefined behaviour.  An array shorter than 240 vertices is not safe. *)
Theorem sceneRender_out_of_bounds
    (rand : nat → N) (fuel : nat) (g : Globals) :
  guard g = true →
  rand_mod_240 rand (S (rand_calls g)) ∉ changed_indeces g →
  length (sphere g) ≤ Z.to_nat (rand_mod_240 rand (S (rand_calls g))) →
  0 < fuel →
  sceneRender rand fuel g = Undefined.
Proof.
  intros Hg Hout Hlen Hfuel. unfold sceneRender, block, recolor. rewrite Hg.
  rewrite (draw_loop_first_fresh rand _ 0 fuel); [|intros j Hj; lia| |done];
    rewrite Nat.add_0_r; [|done].
  simpl. by rewrite paint_outside by (done || apply rand_mod_240_range).
Qed.

(** One vertex only, [rand()] counting up: the loop leaves with index 1. *)
Lemma sceneRender_out_of_bounds_witness :
  guard (initial mesh_1) = true ∧
  (rand_mod_240 rand_counting (S (rand_calls (initial mesh_1)))
   ∉ changed_indeces (initial mesh_1)) ∧
  length (sphere (initial mesh_1))
  ≤ Z.to_nat (rand_mod_240 rand_counting (S (rand_calls (initial mesh_1)))) ∧
  0 < 1 ∧
  sceneRender rand_counting 1 (initial mesh_1) = Undefined.
Proof.
  assert (Hg : guard (initial mesh_1) = true) by (vm_compute; reflexivity).
  assert (Hout : rand_mod_240 rand_counting (S (rand_calls (initial mesh_1)))
                 ∉ changed_indeces (initial mesh_1)).
  { change (1%Z ∉ (∅ : gset Z)). set_solver. }
  assert (Hlen : length (sphere (initial mesh_1))
                 ≤ Z.to_nat (rand_mod_240 rand_counting
                               (S (rand_calls (initial mesh_1)))))
    by (vm_compute; lia).
  split; [exact Hg|]. split; [exact Hout|]. split; [exact Hlen|].
  split; [lia|].
  exact (sceneRender_out_of_bounds rand_counting 1 (initial mesh_1)
           Hg Hout Hlen ltac:(lia)).
Defined.

(** ** Iterations of the main loop *)

Lemma before_render_flag (p : Pad) (g : Globals) :
  is_changing_color (before_render p g)
  = bool_decide (prev_color g ≠ chosen_color (buttons_state p)).
Proof.
  unfold before_render, select, apply_selected_color. simpl.
  case_bool_decide; simpl; repeat destruct (_ =? _)%Z; reflexivity.
Qed.

(** What an iteration with 720 vertices does to a consistent state. *)
Lemma frame_step (rand : nat → N) (fuel : nat) (p : Pad) (g g' : Globals) :
  consistent g → 240 < length (sphere g) → frame rand fuel p g = Ret g' →
  consistent g' ∧
  length (sphere g') = length (sphere g) ∧
  prev_color g' = chosen_color (buttons_state p) ∧
  selected_color g' = chosen_color (buttons_state p) ∧
  color g' = palette (chosen_color (buttons_state p)) ∧
  is_changing_color g'
  = bool_decide (prev_color g ≠ chosen_color (buttons_state p)) ∧
  size (changed_indeces g')
  = 4 + (if decide (prev_color g = chosen_color (buttons_state p))
         then size (changed_indeces g) else 0).
Proof.
  intros Hc Hlen Hf.
  pose proof (frame_consistent _ _ _ _ _ Hc Hf) as Hc'.
  pose proof (frame_length _ _ _ _ _ Hf) as Hl.
  destruct (frame_Ret _ _ _ _ _ Hf) as (g1 & Hcall & ->).
  destruct (before_render_fields p g) as (Hs & _ & _ & Hsel & Hcol & Hch).
  pose proof (sceneRender_advance _ _ _ _ Hcall) as A.
  assert (Hle : size (changed_indeces g1) ≤ 240).
  { rewrite <- size_drawable. apply subseteq_size, (cons_drawable _ Hc'). }
  destruct (sceneRender_four _ _ _ _ Hcall) as [Hsz Hfl]; [rewrite Hs; lia|].
  simpl in *. split; [done|]. split; [done|].
  rewrite (adv_selected _ _ A), (adv_color _ _ A), Hsel, Hcol, Hfl, Hsz, Hch.
  rewrite before_render_flag. repeat split; try done.
  case_decide; [done|]. by rewrite size_empty.
Qed.

(** X5.  With 720 vertices, at the end of every iteration of the main
    loop [is_changing_color] tells whether the selection changed in this
    very iteration and nothing else: it is false again one iteration after
    a change, while the recolouring goes on.  The iteration also ends with
    [prev_color] and [selected_color] on the selection and [color] on its
    colour. *)
Theorem frame_flag_is_selection_change
    (rand : nat → N) (fuel : nat) (p : Pad) (g g' : Globals) :
  consistent g → length (sphere g) = 720 → frame rand fuel p g = Ret g' →
  is_changing_color g'
  = bool_decide (prev_color g ≠ chosen_color (buttons_state p)) ∧
  prev_color g' = chosen_color (buttons_state p) ∧
  selected_color g' = chosen_color (buttons_state p) ∧
  color g' = palette (chosen_color (buttons_state p)).
Proof.
  intros Hc Hlen Hf.
  destruct (frame_step _ _ _ _ _ Hc ltac:(lia) Hf)
    as (_ & _ & Hp & Hs & Hcol & Hfl & _).
  done.
Qed.

Lemma frame_flag_is_selection_change_witness :
  consistent (initial mesh_720) ∧
  length (sphere (initial mesh_720)) = 720 ∧
  frame rand_counting 2 (mkPad HidNpadButton_Up 0) (initial mesh_720)
  = Ret after_first_frame ∧
  is_changing_color after_first_frame
  = bool_decide (prev_color (initial mesh_720)
                 ≠ chosen_color (buttons_state (mkPad HidNpadButton_Up 0))) ∧
  prev_color after_first_frame
  = chosen_color (buttons_state (mkPad HidNpadButton_Up 0)) ∧
  selected_color after_first_frame
  = chosen_color (buttons_state (mkPad HidNpadButton_Up 0)) ∧
  color after_first_frame
  = palette (chosen_color (buttons_state (mkPad HidNpadButton_Up 0))).
Proof.
  assert (Hf : frame rand_counting 2 (mkPad HidNpadButton_Up 0) (initial mesh_720)
               = Ret after_first_frame) by (vm_compute; reflexivity).
  assert (Hlen : length (sphere (initial mesh_720)) = 720)
    by (vm_compute; reflexivity).
  split; [apply initial_consistent|]. split; [exact Hlen|]. split; [exact Hf|].
  exact (frame_flag_is_selection_change rand_counting 2
           (mkPad HidNpadButton_Up 0) (initial mesh_720) after_first_frame
           (initial_consistent mesh_720) Hlen Hf).
Defined.

(** Iterations that neither leave the loop nor change the selection add
    four indices each. *)
Lemma main_loop_same_selection
    (rand : nat → N) (fuel : nat) (pads : list Pad) (g g' : Globals) :
  consistent g → 240 < length (sphere g) →
  Forall (λ p, leaves p = false ∧
               chosen_color (buttons_state p) = prev_color g) pads →
  main_loop rand fuel pads g = Ret g' →
  size (changed_indeces g') = size (changed_indeces g) + 4 * length pads ∧
  consistent g'.
Proof.
  revert g. induction pads as [|p pads IH]; intros g Hc Hlen Hall; simpl.
  - intros [= <-]. split; [lia|done].
  - apply Forall_cons in Hall as [[Hstay Hsame] Hall]. rewrite Hstay.
    destruct (frame rand fuel p g) as [g1| |] eqn:Hf; simpl; try discriminate.
    intros Hrest.
    destruct (frame_step _ _ _ _ _ Hc Hlen Hf)
      as (Hc1 & Hl1 & Hp1 & _ & _ & _ & Hsz).
    rewrite decide_True in Hsz by done.
    destruct (IH g1 Hc1 ltac:(lia)) as [Hsz' Hc']; [|done|].
    + eapply Forall_impl; [exact Hall|]. simpl. intros q [? ?].
      split; [done|congruence].
    + split; [lia|done].
Qed.

(** X6.  With 720 vertices the program cannot get through 61 iterations in
    a row that keep the selection: from any state the loop can be in, the
    set would need more than the 240 indices the draw can give, so one of
    these iterations stays in its [while (true)] loop for ever. *)
Theorem main_loop_hangs_within_61
    (rand : nat → N) (fuel : nat) (pads : list Pad) (g : Globals) :
  consistent g → length (sphere g) = 720 →
  Forall (λ p, leaves p = false ∧
               chosen_color (buttons_state p) = prev_color g) pads →
  60 < length pads →
  main_loop rand fuel pads g = Spin.
Proof.
  intros Hc Hlen Hall Hmany.
  destruct (main_loop rand fuel pads g) as [g'| |] eqn:Hrun; [|done|].
  - destruct (main_loop_same_selection _ _ _ _ _ Hc ltac:(lia) Hall Hrun)
      as [Hsz Hc'].
    assert (size (changed_indeces g') ≤ 240); [|lia].
    rewrite <- size_drawable. apply subseteq_size, (cons_drawable _ Hc').
  - destruct (main_loop_not_Undefined rand fuel pads g); [lia|done].
Qed.

(** The program as started, nobody touching the pad, [rand()] counting up. *)
Lemma main_loop_hangs_within_61_witness :
  consistent (initial mesh_720) ∧
  length (sphere (initial mesh_720)) = 720 ∧
  Forall (λ p, leaves p = false ∧
               chosen_color (buttons_state p) = prev_color (initial mesh_720))
         idle_61 ∧
  60 < length idle_61 ∧
  main_loop rand_counting 3 idle_61 (initial mesh_720) = Spin.
Proof.
  assert (Hlen : length (sphere (initial mesh_720)) = 720)
    by (vm_compute; reflexivity).
  assert (Hall : Forall (λ p, leaves p = false ∧
                   chosen_color (buttons_state p) = prev_color (initial mesh_720))
                   idle_61).
  { apply Forall_replicate. split; reflexivity. }
  assert (Hmany : 60 < length idle_61)
    by (unfold idle_61; rewrite length_replicate; lia).
  split; [apply initial_consistent|]. split; [exact Hlen|].
  split; [exact Hall|]. split; [exact Hmany|].
  exact (main_loop_hangs_within_61 rand_counting 3 idle_61 (initial mesh_720)
           (initial_consistent mesh_720) Hlen Hall Hmany).
Defined.

(** X7.  From the empty set and 720 vertices, 60 calls that return have
    given the target colour to each of the vertices 0 to 239, positions
    kept: the pass recolours the first 240 vertices of the array, all of
    them, and (C4) no other. *)
Theorem renders_60_paint_first_240
    (rand : nat → N) (g g' : Globals) (j : nat) :
  changed_indeces g = ∅ → length (sphere g) = 720 → renders rand g 60 g' →
  j < 240 →
  ∃ v, sphere g !! j = Some v ∧
       sphere g' !! j = Some (Vertex.mk (Vertex.position v) (color g)).
Proof.
  intros Hempty Hlen Hr Hj.
  destruct (renders_60_full _ _ _ Hempty Hlen Hr) as [Hfull _].
  destruct (adv_new _ _ (renders_advance _ _ _ _ Hr) (Z.of_nat j))
    as (_ & v & Hv & Hv').
  - apply Hfull, elem_of_drawable. lia.
  - rewrite Hempty. set_solver.
  - rewrite Nat2Z.id in Hv, Hv'. eauto.
Qed.

Lemma renders_60_paint_first_240_witness :
  changed_indeces (initial mesh_720) = ∅ ∧
  length (sphere (initial mesh_720)) = 720 ∧
  renders rand_counting (initial mesh_720) 60 after_60_calls ∧
  239 < 240 ∧
  ∃ v, sphere (initial mesh_720) !! 239 = Some v ∧
       sphere after_60_calls !! 239
       = Some (Vertex.mk (Vertex.position v) (color (initial mesh_720))).
Proof.
  assert (Hr : renders rand_counting (initial mesh_720) 60 after_60_calls).
  { apply (calls_renders rand_counting 60 3), calls_60_counting. }
  assert (Hlen : length (sphere (initial mesh_720)) = 720)
    by (vm_compute; reflexivity).
  split; [reflexivity|]. split; [exact Hlen|]. split; [exact Hr|].
  split; [lia|].
  exact (renders_60_paint_first_240 rand_counting (initial mesh_720)
           after_60_calls 239 eq_refl Hlen Hr ltac:(lia)).
Defined.

(** ** The pad *)

Lemma BIT_testbit (x n : Z) : (0 ≤ x)%Z → Z.testbit (BIT x) n = (x =? n)%Z.
Proof.
  intros Hx. unfold BIT. rewrite Z.shiftl_1_l. by apply Z.pow2_bits_eqb.
Qed.

Lemma pressed_bit (state x : Z) :
  (0 ≤ x)%Z → pressed state (BIT x) = Z.testbit state x.
Proof.
  intros Hx. unfold pressed.
  destruct (Z.land state (BIT x) =? 0)%Z eqn:Hz; simpl.
  - apply Z.eqb_eq in Hz.
    assert (H : Z.testbit (Z.land state (BIT x)) x = false)
      by (rewrite Hz; apply Z.bits_0).
    rewrite Z.land_spec, BIT_testbit, Z.eqb_refl, andb_true_r in H by done.
    by rewrite H.
  - apply Z.eqb_neq in Hz.
    destruct (Z.testbit state x) eqn:Hb; [done|]. destruct Hz.
    apply Z.bits_inj'. intros n _.
    rewrite Z.land_spec, BIT_testbit, Z.bits_0 by done.
    destruct (x =? n)%Z eqn:Hn; [|apply andb_false_r].
    apply Z.eqb_eq in Hn. subst n. by rewrite Hb.
Qed.

Lemma pressed_two_bits (state x y : Z) :
  (0 ≤ x)%Z → (0 ≤ y)%Z →
  pressed state (Z.lor (BIT x) (BIT y)) = Z.testbit state x || Z.testbit state y.
Proof.
  intros Hx Hy. unfold pressed.
  destruct (Z.land state (Z.lor (BIT x) (BIT y)) =? 0)%Z eqn:Hz; simpl.
  - apply Z.eqb_eq in Hz.
    assert (H : ∀ n, Z.testbit state n && ((x =? n)%Z || (y =? n)%Z) = false).
    { intros n. rewrite <- (BIT_testbit x), <- (BIT_testbit y) by done.
      rewrite <- Z.lor_spec, <- Z.land_spec, Hz. apply Z.bits_0. }
    pose proof (H x) as H1. pose proof (H y) as H2.
    rewrite Z.eqb_refl in H1, H2. rewrite orb_true_r in H2. simpl in H1.
    rewrite andb_true_r in H1, H2. by rewrite H1, H2.
  - apply Z.eqb_neq in Hz.
    destruct (Z.testbit state x) eqn:Hbx; [done|].
    destruct (Z.testbit state y) eqn:Hby; [done|]. destruct Hz.
    apply Z.bits_inj'. intros n _.
    rewrite Z.land_spec, Z.lor_spec, !BIT_testbit, Z.bits_0 by done.
    destruct (x =? n)%Z eqn:Hn; [apply Z.eqb_eq in Hn; subst n; by rewrite Hbx|].
    destruct (y =? n)%Z eqn:Hm; [apply Z.eqb_eq in Hm; subst n; by rewrite Hby|].
    apply andb_false_r.
Qed.

(** X8.  How the masks decode the pad.  The selection is 2 when bit 13 (Up)
    or bit 17 (left stick up) of the held buttons is set, whatever the other
    bits; otherwise 1 when bit 15 (Down) or bit 19 (left stick down) is set;
    otherwise 0: up wins over down.  The loop is left when bit 10 (Plus) of
    the pressed keys is set and bit 11 (Minus) is not: Minus masks Plus. *)
Theorem pad_decoding (p : Pad) :
  chosen_color (buttons_state p)
  = (if Z.testbit (buttons_state p) 13 || Z.testbit (buttons_state p) 17
     then 2%Z
     else if Z.testbit (buttons_state p) 15 || Z.testbit (buttons_state p) 19
          then 1%Z else 0%Z) ∧
  leaves p
  = Z.testbit (keys_down p) 10 && negb (Z.testbit (keys_down p) 11).
Proof.
  split.
  - unfold chosen_color, HidNpadButton_Up, HidNpadButton_StickLUp,
      HidNpadButton_Down, HidNpadButton_StickLDown.
    by rewrite !pressed_two_bits by lia.
  - unfold leaves, HidNpadButton_Minus, HidNpadButton_Plus.
    rewrite !pressed_bit by lia. apply andb_comm.
Qed.

(** X9.  The iteration that leaves the loop does so after the selection
    chain and before the rest: [selected_color] has the new selection and
    the set is cleared if it differs from the previous one, but [color] and
    [prev_color] are as before, [sceneRender] is not called (the mesh and the
    count of [rand()] calls are as before) and the inputs that follow are
    not read. *)
Theorem main_loop_leaves_before_render
    (rand : nat → N) (fuel : nat) (p : Pad) (rest : list Pad) (g : Globals) :
  leaves p = true →
  ∃ g', main_loop rand fuel (p :: rest) g = Ret g' ∧
        sphere g' = sphere g ∧
        rand_calls g' = rand_calls g ∧
        color g' = color g ∧
        prev_color g' = prev_color g ∧
        selected_color g' = chosen_color (buttons_state p) ∧
        changed_indeces g'
        = (if decide (prev_color g = chosen_color (buttons_state p))
           then changed_indeces g else ∅).
Proof.
  intros Hl. simpl. rewrite Hl. eexists. split; [reflexivity|].
  destruct (select_fields (chosen_color (buttons_state p)) g)
    as (Hs & Hc & Hp & Hch).
  repeat split; try done.
  - unfold select. simpl. by case_bool_decide.
  - unfold select. simpl. by case_bool_decide.
Qed.

(** After the first call, Down is held and Plus pressed: red is still the
    target, the four red vertices are no longer in the set, and the idle
    iterations that follow are not run. *)
Lemma main_loop_leaves_before_render_witness :
  leaves pad_down_plus = true ∧
  ∃ g', main_loop rand_counting 3 (pad_down_plus :: idle_61) after_first_call
        = Ret g' ∧
        sphere g' = sphere after_first_call ∧
        rand_calls g' = rand_calls after_first_call ∧
        color g' = color after_first_call ∧
        prev_color g' = prev_color after_first_call ∧
        selected_color g' = chosen_color (buttons_state pad_down_plus) ∧
        changed_indeces g'
        = (if decide (prev_color after_first_call
                      = chosen_color (buttons_state pad_down_plus))
           then changed_indeces after_first_call else ∅).
Proof.
  assert (Hl : leaves pad_down_plus = true) by reflexivity.
  split; [exact Hl|].
  exact (main_loop_leaves_before_render rand_counting 3 pad_down_plus idle_61
           after_first_call Hl).
Defined.

(** ** EGL set-up and tear-down *)

Lemma release_here (x : egl_resource) (held : list egl_resource) :
  release x (x :: held) = release x held.
Proof. unfold release. by rewrite filter_cons_False by (intros H; by apply H). Qed.

Lemma release_skip (x y : egl_resource) (held : list egl_resource) :
  y ≠ x → release x (y :: held) = y :: release x held.
Proof. intros H. unfold release. by rewrite filter_cons_True. Qed.

Lemma release_nil (x : egl_resource) : release x [] = [].
Proof. reflexivity. Qed.

Lemma egl_held_app (t1 t2 : list egl_call) :
  egl_held (t1 ++ t2) = fold_left egl_step t2 (egl_held t1).
Proof. unfold egl_held. apply fold_left_app. Qed.

(** The outcomes of [initEgl], one for each way through it. *)
Lemma initEgl_cases (r : EglReplies) (st : EglState) :
  let d := reply_display r in
  let s := reply_surface r in
  let c := reply_context r in
  (d = 0%Z ∧
   initEgl r st
   = (false, mkEglState 0 (s_context st) (s_surface st), [eglGetDisplay 0])) ∨
  (d ≠ 0%Z ∧ reply_bind_api r = false ∧
   initEgl r st
   = (false, mkEglState 0 (s_context st) (s_surface st),
      [eglGetDisplay d; eglInitialize d; eglBindAPI false; eglTerminate d])) ∨
  (d ≠ 0%Z ∧ reply_bind_api r = true ∧ reply_num_configs r = 0%Z ∧
   initEgl r st
   = (false, mkEglState 0 (s_context st) (s_surface st),
      [eglGetDisplay d; eglInitialize d; eglBindAPI true; eglChooseConfig d 0;
       eglTerminate d])) ∨
  (d ≠ 0%Z ∧ reply_bind_api r = true ∧ reply_num_configs r ≠ 0%Z ∧ s = 0%Z ∧
   initEgl r st
   = (false, mkEglState 0 (s_context st) 0,
      [eglGetDisplay d; eglInitialize d; eglBindAPI true;
       eglChooseConfig d (reply_num_configs r); eglCreateWindowSurface d 0;
       eglTerminate d])) ∨
  (d ≠ 0%Z ∧ reply_bind_api r = true ∧ reply_num_configs r ≠ 0%Z ∧ s ≠ 0%Z ∧
   c = 0%Z ∧
   initEgl r st
   = (false, mkEglState 0 0 0,
      [eglGetDisplay d; eglInitialize d; eglBindAPI true;
       eglChooseConfig d (reply_num_configs r); eglCreateWindowSurface d s;
       eglCreateContext d 0; eglDestroySurface d s; eglTerminate d])) ∨
  (d ≠ 0%Z ∧ reply_bind_api r = true ∧ reply_num_configs r ≠ 0%Z ∧ s ≠ 0%Z ∧
   c ≠ 0%Z ∧
   initEgl r st
   = (true, mkEglState d c s,
      [eglGetDisplay d; eglInitialize d; eglBindAPI true;
       eglChooseConfig d (reply_num_configs r); eglCreateWindowSurface d s;
       eglCreateContext d c; eglMakeCurrent d s s c])).
Proof.
  intros d s c. subst d s c. unfold initEgl. simpl.
  destruct (reply_display r =? 0)%Z eqn:Hd.
  { apply Z.eqb_eq in Hd. left. by rewrite Hd. }
  apply Z.eqb_neq in Hd. right.
  destruct (reply_bind_api r) eqn:Hb; simpl; [|by left].
  right.
  destruct (reply_num_configs r =? 0)%Z eqn:Hn.
  { apply Z.eqb_eq in Hn. left. by rewrite Hn. }
  apply Z.eqb_neq in Hn. right.
  destruct (reply_surface r =? 0)%Z eqn:Hs.
  { apply Z.eqb_eq in Hs. left. by rewrite Hs. }
  apply Z.eqb_neq in Hs. right.
  destruct (reply_context r =? 0)%Z eqn:Hc.
  { apply Z.eqb_eq in Hc. left. by rewrite Hc. }
  apply Z.eqb_neq in Hc. right. done.
Qed.

(** X10.  [initEgl] returns true exactly when the display is not null,
    [eglBindAPI] succeeded, [numConfigs] is not 0 and neither the surface
    nor the context is null; the three statics then hold what the library
    returned and the last call made the context current on the surface.
    The result of [eglInitialize] plays no part. *)
Theorem initEgl_succeeds_iff
    (r : EglReplies) (st st' : EglState) (ok : bool) (t : list egl_call) :
  initEgl r st = (ok, st', t) →
  (ok = true ↔
   reply_display r ≠ 0%Z ∧ reply_bind_api r = true ∧
   reply_num_configs r ≠ 0%Z ∧ reply_surface r ≠ 0%Z ∧
   reply_context r ≠ 0%Z) ∧
  (ok = true →
   st' = mkEglState (reply_display r) (reply_context r) (reply_surface r) ∧
   last t = Some (eglMakeCurrent (reply_display r) (reply_surface r)
                                 (reply_surface r) (reply_context r))).
Proof.
  intros H.
  destruct (initEgl_cases r st)
    as [(? & E)|[(? & ? & E)|[(? & ? & ? & E)|[(? & ? & ? & ? & E)
       |[(? & ? & ? & ? & ? & E)|(? & ? & ? & ? & ? & E)]]]]];
    rewrite E in H; injection H as <- <- <-; (split; [split|]);
    try discriminate; try done; try (intros (? & ? & ? & ? & ?); congruence).
Qed.

Lemma initEgl_succeeds_iff_witness :
  initEgl replies_ok no_egl
  = (true, mkEglState 1 3 2,
     [eglGetDisplay 1; eglInitialize 1; eglBindAPI true; eglChooseConfig 1 1;
      eglCreateWindowSurface 1 2; eglCreateContext 1 3; eglMakeCurrent 1 2 2 3]) ∧
  (true = true ↔
   reply_display replies_ok ≠ 0%Z ∧ reply_bind_api replies_ok = true ∧
   reply_num_configs replies_ok ≠ 0%Z ∧ reply_surface replies_ok ≠ 0%Z ∧
   reply_context replies_ok ≠ 0%Z) ∧
  (true = true →
   mkEglState 1 3 2
   = mkEglState (reply_display replies_ok) (reply_context replies_ok)
                (reply_surface replies_ok) ∧
   last [eglGetDisplay 1; eglInitialize 1; eglBindAPI true; eglChooseConfig 1 1;
         eglCreateWindowSurface 1 2; eglCreateContext 1 3; eglMakeCurrent 1 2 2 3]
   = Some (eglMakeCurrent (reply_display replies_ok) (reply_surface replies_ok)
                          (reply_surface replies_ok) (reply_context replies_ok))).
Proof.
  split; [reflexivity|].
  exact (initEgl_succeeds_iff replies_ok no_egl _ _ _ eq_refl).
Defined.

(** X11.  When [initEgl] returns false it has given back what it took:
    the calls it made leave no connection, surface or context held (a surface
    created before the context failed is destroyed, the display is
    terminated once it was obtained), [s_display] is null, [s_surface] and
    [s_context] are null or as they were, and a [deinitEgl] after it makes no
    call. *)
Theorem initEgl_failure_releases
    (r : EglReplies) (st st' : EglState) (t : list egl_call) :
  initEgl r st = (false, st', t) →
  egl_held t = [] ∧
  s_display st' = 0%Z ∧
  (s_surface st' = 0%Z ∨ s_surface st' = s_surface st) ∧
  (s_context st' = 0%Z ∨ s_context st' = s_context st) ∧
  deinitEgl st' = (st', []).
Proof.
  intros H.
  destruct (initEgl_cases r st)
    as [(? & E)|[(? & ? & E)|[(? & ? & ? & E)|[(? & ? & ? & ? & E)
       |[(? & ? & ? & ? & ? & E)|(? & ? & ? & ? & ? & E)]]]]];
    rewrite E in H; try discriminate; injection H as <- <-;
    (split; [|simpl; auto]); unfold egl_held; simpl;
    rewrite ?Z.eqb_refl; simpl.
  - done.
  - by rewrite release_here.
  - by rewrite release_here.
  - by rewrite release_here.
  - destruct (reply_surface r =? 0)%Z eqn:Hs;
      [apply Z.eqb_eq in Hs; congruence|].
    rewrite release_here, release_skip by discriminate.
    by rewrite release_here.
Qed.

(** The context is refused: the surface, already created, is destroyed. *)
Lemma initEgl_failure_releases_witness :
  initEgl replies_no_context no_egl
  = (false, no_egl,
     [eglGetDisplay 1; eglInitialize 1; eglBindAPI true; eglChooseConfig 1 1;
      eglCreateWindowSurface 1 2; eglCreateContext 1 0; eglDestroySurface 1 2;
      eglTerminate 1]) ∧
  egl_held [eglGetDisplay 1; eglInitialize 1; eglBindAPI true;
            eglChooseConfig 1 1; eglCreateWindowSurface 1 2;
            eglCreateContext 1 0; eglDestroySurface 1 2; eglTerminate 1] = [] ∧
  s_display no_egl = 0%Z ∧
  (s_surface no_egl = 0%Z ∨ s_surface no_egl = s_surface no_egl) ∧
  (s_context no_egl = 0%Z ∨ s_context no_egl = s_context no_egl) ∧
  deinitEgl no_egl = (no_egl, []).
Proof.
  split; [reflexivity|].
  exact (initEgl_failure_releases replies_no_context no_egl _ _ eq_refl).
Defined.

(** X12.  After an [initEgl] that returned true, [deinitEgl] unbinds the
    context, destroys the context, then the surface, then terminates the
    display, and sets the three statics to null; the calls of the two
    together leave nothing held. *)
Theorem deinitEgl_after_initEgl
    (r : EglReplies) (st st' : EglState) (t : list egl_call) :
  initEgl r st = (true, st', t) →
  deinitEgl st'
  = (no_egl,
     [eglMakeCurrent (reply_display r) 0 0 0;
      eglDestroyContext (reply_display r) (reply_context r);
      eglDestroySurface (reply_display r) (reply_surface r);
      eglTerminate (reply_display r)]) ∧
  egl_held (t ++ (deinitEgl st').2) = [].
Proof.
  intros H.
  destruct (initEgl_cases r st)
    as [(? & E)|[(? & ? & E)|[(? & ? & ? & E)|[(? & ? & ? & ? & E)
       |[(? & ? & ? & ? & ? & E)|(Hd & Hb & Hn & Hs & Hc & E)]]]]];
    rewrite E in H; try discriminate; injection H as <- <-.
  apply Z.eqb_neq in Hd, Hs, Hc.
  assert (Hde : deinitEgl
                  (mkEglState (reply_display r) (reply_context r) (reply_surface r))
                = (no_egl,
                   [eglMakeCurrent (reply_display r) 0 0 0;
                    eglDestroyContext (reply_display r) (reply_context r);
                    eglDestroySurface (reply_display r) (reply_surface r);
                    eglTerminate (reply_display r)])).
  { unfold deinitEgl. simpl. rewrite Hd, Hc. simpl. by rewrite Hs. }
  split; [exact Hde|]. rewrite Hde. unfold egl_held. simpl.
  rewrite Hs, Hc.
  repeat (rewrite release_here || (rewrite release_skip by discriminate)
          || rewrite release_nil).
  reflexivity.
Qed.

Lemma deinitEgl_after_initEgl_witness :
  initEgl replies_ok no_egl
  = (true, mkEglState 1 3 2,
     [eglGetDisplay 1; eglInitialize 1; eglBindAPI true; eglChooseConfig 1 1;
      eglCreateWindowSurface 1 2; eglCreateContext 1 3; eglMakeCurrent 1 2 2 3]) ∧
  deinitEgl (mkEglState 1 3 2)
  = (no_egl,
     [eglMakeCurrent (reply_display replies_ok) 0 0 0;
      eglDestroyContext (reply_display replies_ok) (reply_context replies_ok);
      eglDestroySurface (reply_display replies_ok) (reply_surface replies_ok);
      eglTerminate (reply_display replies_ok)]) ∧
  egl_held
    ([eglGetDisplay 1; eglInitialize 1; eglBindAPI true; eglChooseConfig 1 1;
      eglCreateWindowSurface 1 2; eglCreateContext 1 3; eglMakeCurrent 1 2 2 3]
     ++ (deinitEgl (mkEglState 1 3 2)).2) = [].
Proof.
  split; [reflexivity|].
  exact (deinitEgl_after_initEgl replies_ok no_egl _ _ eq_refl).
Defined.

(** X13.  [deinitEgl] looks at [s_display] first: with a null display it
    makes no call and leaves the statics alone, even when a surface or a
    context is still recorded; otherwise it leaves all three null.  Either
    way the display is null afterwards, so a second [deinitEgl] makes no
    call and changes nothing. *)
Theorem deinitEgl_idempotent (st : EglState) :
  (s_display st = 0%Z → deinitEgl st = (st, [])) ∧
  (s_display st ≠ 0%Z → (deinitEgl st).1 = no_egl) ∧
  s_display (deinitEgl st).1 = 0%Z ∧
  deinitEgl (deinitEgl st).1 = ((deinitEgl st).1, []).
Proof.
  assert (Hnull : ∀ st0, s_display st0 = 0%Z → deinitEgl st0 = (st0, [])).
  { intros st0 H0. unfold deinitEgl. by rewrite H0. }
  assert (Hlive : s_display st ≠ 0%Z → (deinitEgl st).1 = no_egl).
  { intros Hd. apply Z.eqb_neq in Hd. unfold deinitEgl. rewrite Hd.
    destruct (s_context st =? 0)%Z eqn:Hc, (s_surface st =? 0)%Z eqn:Hs;
      simpl; rewrite ?Hs, ?Hc; simpl;
      try apply Z.eqb_eq in Hc; try apply Z.eqb_eq in Hs;
      by rewrite ?Hc, ?Hs. }
  assert (Hd' : s_display (deinitEgl st).1 = 0%Z).
  { destruct (decide (s_display st = 0%Z)) as [H0|H0].
    - by rewrite (Hnull st H0).
    - by rewrite (Hlive H0). }
  split; [apply Hnull|]. split; [exact Hlive|]. split; [exact Hd'|].
  by apply Hnull.
Qed.

(** ** [main] *)

Lemma fold_egl_step_swaps (n : nat) (d s : Z) (held : list egl_resource) :
  fold_left egl_step (replicate n (eglSwapBuffers d s)) held = held.
Proof. induction n as [|n IH]; simpl; done. Qed.

Lemma swap_count_app (t1 t2 : list egl_call) :
  swap_count (t1 ++ t2) = swap_count t1 + swap_count t2.
Proof. unfold swap_count. by rewrite List.filter_app, length_app. Qed.

Lemma swap_count_replicate (n : nat) (d s : Z) :
  swap_count (replicate n (eglSwapBuffers d s)) = n.
Proof.
  unfold swap_count. induction n as [|n IH]; simpl; [done|]. by rewrite IH.
Qed.

(** X14.  When [initEgl] fails, [main] returns [EXIT_FAILURE] at once: the
    loop is not entered (whatever the inputs, also those on which it would
    never end), the statics are null and nothing is held. *)
Theorem main_fails_without_egl
    (r : EglReplies) (rand : nat → N) (fuel : nat) (pads : list Pad)
    (mesh : list Vertex.t) :
  (initEgl r no_egl).1.1 = false →
  ∃ t, main r rand fuel pads mesh = Ret (EXIT_FAILURE, no_egl, t) ∧
       egl_held t = [] ∧ swap_count t = 0.
Proof.
  intros Hfail. unfold main.
  destruct (initEgl r no_egl) as [[ok st] t] eqn:E. simpl in Hfail. subst ok.
  simpl. destruct (initEgl_cases r no_egl)
    as [(? & E')|[(? & ? & E')|[(? & ? & ? & E')|[(? & ? & ? & ? & E')
       |[(? & ? & ? & ? & ? & E')|(? & ? & ? & ? & ? & E')]]]]];
    rewrite E' in E; try discriminate; injection E as <- <-;
    (eexists; split; [reflexivity|]); (split; [|reflexivity]);
    unfold egl_held; simpl; rewrite ?Z.eqb_refl; simpl;
    try (destruct (reply_surface r =? 0)%Z eqn:Hs;
         [apply Z.eqb_eq in Hs; congruence|]);
    repeat (rewrite release_here || (rewrite release_skip by discriminate)
            || rewrite release_nil);
    reflexivity.
Qed.

(** No configuration, and inputs on which the loop would never end. *)
Lemma main_fails_without_egl_witness :
  (initEgl replies_no_config no_egl).1.1 = false ∧
  main_loop rand_counting 3 idle_61 (initial mesh_720) = Spin ∧
  ∃ t, main replies_no_config rand_counting 3 idle_61 mesh_720
       = Ret (EXIT_FAILURE, no_egl, t) ∧
       egl_held t = [] ∧ swap_count t = 0.
Proof.
  split; [reflexivity|]. split; [vm_compute; reflexivity|].
  exact (main_fails_without_egl replies_no_config rand_counting 3 idle_61
           mesh_720 eq_refl).
Defined.

(** X15.  Whenever [main] returns, the three statics are null and its EGL
    calls leave nothing held.  The status is [EXIT_SUCCESS] exactly when
    [initEgl] succeeded; the buffers were then swapped once for each
    iteration before the one that left the loop. *)
Theorem main_returns_released
    (r : EglReplies) (rand : nat → N) (fuel : nat) (pads : list Pad)
    (mesh : list Vertex.t) (status : Z) (st : EglState) (t : list egl_call) :
  main r rand fuel pads mesh = Ret (status, st, t) →
  st = no_egl ∧
  egl_held t = [] ∧
  (status = EXIT_SUCCESS ∨ status = EXIT_FAILURE) ∧
  (status = EXIT_SUCCESS ↔ (initEgl r no_egl).1.1 = true) ∧
  (status = EXIT_SUCCESS → swap_count t = frames_shown pads).
Proof.
  intros Hmain. unfold main in Hmain.
  destruct (initEgl_cases r no_egl)
    as [(? & E)|[(? & ? & E)|[(? & ? & ? & E)|[(? & ? & ? & ? & E)
       |[(Hd & Hb & Hn & Hs & Hc & E)|(Hd & Hb & Hn & Hs & Hc & E)]]]]];
    rewrite E in Hmain |- *; simpl in Hmain.
  1-5: injection Hmain as <- <- <-;
    (split; [reflexivity|]); (split; [|split; [by right|split;
      [split; discriminate|discriminate]]]);
    unfold egl_held; simpl; rewrite ?Z.eqb_refl; simpl;
    try (rewrite (proj2 (Z.eqb_neq _ _) Hs));
    repeat (rewrite release_here || (rewrite release_skip by discriminate)
            || rewrite release_nil);
    reflexivity.
  destruct (main_loop rand fuel pads (initial mesh)) as [g| |];
    simpl in Hmain; try discriminate.
  apply Z.eqb_neq in Hd, Hs, Hc.
  unfold deinitEgl in Hmain. simpl in Hmain. rewrite Hd, Hc in Hmain.
  simpl in Hmain. rewrite Hs in Hmain. simpl in Hmain.
  injection Hmain as <- <- <-.
  split; [reflexivity|]. split; [|split; [by left|split; [done|]]].
  - unfold egl_held. simpl. rewrite Hs, Hc.
    rewrite fold_left_app, fold_egl_step_swaps. simpl.
    repeat (rewrite release_here || (rewrite release_skip by discriminate)
            || rewrite release_nil).
    reflexivity.
  - intros _.
    change (swap_count
              ([eglGetDisplay (reply_display r); eglInitialize (reply_display r);
                eglBindAPI true;
                eglChooseConfig (reply_display r) (reply_num_configs r);
                eglCreateWindowSurface (reply_display r) (reply_surface r);
                eglCreateContext (reply_display r) (reply_context r);
                eglMakeCurrent (reply_display r) (reply_surface r)
                  (reply_surface r) (reply_context r)]
               ++ replicate (frames_shown pads)
                    (eglSwapBuffers (reply_display r) (reply_surface r))
               ++ [eglMakeCurrent (reply_display r) 0 0 0;
                   eglDestroyContext (reply_display r) (reply_context r);
                   eglDestroySurface (reply_display r) (reply_surface r);
                   eglTerminate (reply_display r)])
            = frames_shown pads).
    rewrite !swap_count_app, swap_count_replicate.
    unfold swap_count. simpl. lia.
Qed.

Lemma main_returns_released_witness :
  main replies_ok rand_counting 2 short_session mesh_720
  = Ret short_session_outcome ∧
  no_egl = no_egl ∧
  egl_held short_session_outcome.2 = [] ∧
  (EXIT_SUCCESS = EXIT_SUCCESS ∨ EXIT_SUCCESS = EXIT_FAILURE) ∧
  (EXIT_SUCCESS = EXIT_SUCCESS ↔ (initEgl replies_ok no_egl).1.1 = true) ∧
  (EXIT_SUCCESS = EXIT_SUCCESS →
   swap_count short_session_outcome.2 = frames_shown short_session).
Proof.
  assert (H : main replies_ok rand_counting 2 short_session mesh_720
              = Ret short_session_outcome) by (vm_compute; reflexivity).
  split; [exact H|].
  exact (main_returns_released replies_ok rand_counting 2 short_session
           mesh_720 EXIT_SUCCESS no_egl short_session_outcome.2 H).
Defined.

(** ** Shaders and the objects of the scene *)

Lemma gl_delete_here (x : gl_object) (held : list gl_object) :
  gl_delete x (x :: held) = gl_delete x held.
Proof.
  unfold gl_delete. by rewrite filter_cons_False by (intros H; by apply H).
Qed.

Lemma gl_delete_skip (x y : gl_object) (held : list gl_object) :
  y ≠ x → gl_delete x (y :: held) = y :: gl_delete x held.
Proof. intros H. unfold gl_delete. by rewrite filter_cons_True. Qed.

Lemma gl_delete_nil (x : gl_object) : gl_delete x [] = [].
Proof. reflexivity. Qed.

Lemma gl_delete_absent (x : gl_object) (held : list gl_object) :
  x ∉ held → gl_delete x held = held.
Proof.
  induction held as [|y held IH]; intros Hx; [done|].
  apply not_elem_of_cons in Hx as [Hne Hx].
  rewrite gl_delete_skip by done. by rewrite IH.
Qed.

Lemma gl_held_app (t1 t2 : list gl_call) :
  gl_held (t1 ++ t2) = fold_left gl_step t2 (gl_held t1).
Proof. unfold gl_held. apply fold_left_app. Qed.

(** The three ways through [createAndCompileShader]. *)
Lemma createAndCompileShader_cases
    (type : shader_type) (source : shader_text) (r : ShaderReplies) :
  let h := reply_shader r in
  (h = 0%Z ∧
   createAndCompileShader type source r = (0%Z, [glCreateShader type 0])) ∨
  (h ≠ 0%Z ∧ reply_compile_status r = 0%Z ∧
   createAndCompileShader type source r
   = (0%Z, [glCreateShader type h; glShaderSource h source; glCompileShader h;
            glGetShaderiv h 0; glGetShaderInfoLog h; glDeleteShader h])) ∨
  (h ≠ 0%Z ∧ reply_compile_status r ≠ 0%Z ∧
   createAndCompileShader type source r
   = (h, [glCreateShader type h; glShaderSource h source; glCompileShader h;
          glGetShaderiv h (reply_compile_status r)])).
Proof.
  intros h. subst h. unfold createAndCompileShader.
  destruct (reply_shader r =? 0)%Z eqn:Hh.
  { apply Z.eqb_eq in Hh. left. by rewrite Hh. }
  apply Z.eqb_neq in Hh. right.
  destruct (reply_compile_status r =? 0)%Z eqn:Hs.
  { apply Z.eqb_eq in Hs. left. by rewrite Hs. }
  apply Z.eqb_neq in Hs. right. done.
Qed.

(** What the calls of [createAndCompileShader] do to the objects held. *)
Lemma createAndCompileShader_fold
    (type : shader_type) (source : shader_text) (r : ShaderReplies)
    (held : list gl_object) :
  (∀ n, Shader n ∉ held) →
  fold_left gl_step (createAndCompileShader type source r).2 held
  = (if ((createAndCompileShader type source r).1 =? 0)%Z then held
     else Shader (createAndCompileShader type source r).1 :: held).
Proof.
  intros Hnone.
  assert (Hdel : ∀ n, gl_delete (Shader n) held = held).
  { intros n. by apply gl_delete_absent. }
  destruct (createAndCompileShader_cases type source r)
    as [(Hh & ->)|[(Hh & Hs & ->)|(Hh & Hs & ->)]]; simpl.
  - reflexivity.
  - unfold gl_create. rewrite (proj2 (Z.eqb_neq _ _) Hh).
    by rewrite gl_delete_here.
  - unfold gl_create. by rewrite (proj2 (Z.eqb_neq _ _) Hh).
Qed.

(** X16.  [createAndCompileShader] returns a name other than 0 exactly
    when [glCreateShader] gave one and the compile status is not 0, and the
    name is then the one created.  When it returns 0 no shader is left: one
    that was created and did not compile has been deleted. *)
Theorem createAndCompileShader_returns
    (type : shader_type) (source : shader_text) (r : ShaderReplies) :
  ((createAndCompileShader type source r).1 ≠ 0%Z ↔
   reply_shader r ≠ 0%Z ∧ reply_compile_status r ≠ 0%Z) ∧
  ((createAndCompileShader type source r).1 = 0%Z ∨
   (createAndCompileShader type source r).1 = reply_shader r) ∧
  gl_held (createAndCompileShader type source r).2
  = (if ((createAndCompileShader type source r).1 =? 0)%Z then []
     else [Shader (createAndCompileShader type source r).1]).
Proof.
  split; [|split].
  - destruct (createAndCompileShader_cases type source r)
      as [(Hh & ->)|[(Hh & Hs & ->)|(Hh & Hs & ->)]]; simpl; split;
      try done; try (intros [? ?]; congruence).
  - destruct (createAndCompileShader_cases type source r)
      as [(Hh & ->)|[(Hh & Hs & ->)|(Hh & Hs & ->)]]; simpl; auto.
  - unfold gl_held. apply createAndCompileShader_fold. intros n Hn.
    by apply elem_of_nil in Hn.
Qed.

Lemma sceneInit_fold (r : SceneReplies) (mesh : list Vertex.t) :
  gl_held (sceneInit r mesh).2
  = gl_held [glCreateProgram (reply_program r);
             glGenVertexArrays (reply_vao r); glGenBuffers (reply_vbo r)] ∧
  (sceneInit r mesh).1
  = mkScene (reply_program r) (reply_vao r) (reply_vbo r)
            (to_unsigned_int (reply_transform r))
            (to_unsigned_int (reply_translation r))
            (to_unsigned_int (reply_color r)).
Proof.
  unfold sceneInit.
  pose proof (createAndCompileShader_fold GL_VERTEX_SHADER vertexShaderSource
                (reply_vsh r) []) as Hv.
  destruct (createAndCompileShader GL_VERTEX_SHADER vertexShaderSource
              (reply_vsh r)) as [vsh tv].
  simpl in Hv.
  specialize (Hv ltac:(intros n Hn; by apply elem_of_nil in Hn)).
  assert (Hnone : ∀ n, n ≠ vsh → Shader n ∉ fold_left gl_step tv []).
  { intros n Hne. rewrite Hv. destruct (vsh =? 0)%Z.
    - intros Hn. by apply elem_of_nil in Hn.
    - intros Hn. apply list_elem_of_singleton in Hn. congruence. }
  destruct (createAndCompileShader GL_FRAGMENT_SHADER fragmentShaderSource
              (reply_fsh r)) as [fsh tf] eqn:Ef.
  split; [|reflexivity]. simpl.
  assert (Hshaders :
    gl_delete (Shader fsh) (gl_delete (Shader vsh)
      (gl_create (Program (reply_program r)) (reply_program r)
         (fold_left gl_step tf (fold_left gl_step tv []))))
    = gl_create (Program (reply_program r)) (reply_program r) []).
  { destruct (createAndCompileShader_cases GL_FRAGMENT_SHADER
                fragmentShaderSource (reply_fsh r))
      as [(Hh & E)|[(Hh & Hs & E)|(Hh & Hs & E)]];
      rewrite E in Ef; injection Ef as <- <-; simpl; rewrite Hv;
      unfold gl_create;
      destruct (Z.eqb_spec (reply_program r) 0) as [Hp|Hp];
      destruct (Z.eqb_spec vsh 0) as [Hz|Hz];
      destruct (Z.eqb_spec (reply_shader (reply_fsh r)) 0) as [Hf|Hf];
      try congruence; simpl;
      repeat (rewrite gl_delete_here || rewrite gl_delete_nil
              || (rewrite gl_delete_skip by discriminate)
              || (match goal with
                  | |- context [gl_delete (Shader ?x) (Shader ?y :: _)] =>
                      destruct (decide (y = x)) as [Heq| ?];
                      [rewrite Heq; rewrite gl_delete_here
                      |rewrite gl_delete_skip by (intros [= ?]; congruence)]
                  end));
      reflexivity. }
  unfold gl_held.
  destruct (reply_link_status r =? 0)%Z;
    rewrite <- ?app_assoc, !fold_left_app; simpl;
    rewrite Hshaders; reflexivity.
Qed.

(** X17.  Whatever the library answers, also when a shader does not
    compile or the program does not link, [sceneInit] goes through to its
    end: it uploads [sphere] as it is then, and its calls leave held exactly
    what creating the program, the vertex array and the buffer leaves.  No
    shader is left: each one created has been deleted, in
    [createAndCompileShader] when it did not compile, after the link
    otherwise. *)
Theorem sceneInit_leaves_no_shader (r : SceneReplies) (mesh : list Vertex.t) :
  gl_held (sceneInit r mesh).2
  = gl_held [glCreateProgram (s_program (sceneInit r mesh).1);
             glGenVertexArrays (s_vao (sceneInit r mesh).1);
             glGenBuffers (s_vbo (sceneInit r mesh).1)] ∧
  (∀ n, Shader n ∉ gl_held (sceneInit r mesh).2) ∧
  glBufferData mesh ∈ (sceneInit r mesh).2 ∧
  last (sceneInit r mesh).2 = Some glEnable_GL_CULL_FACE.
Proof.
  destruct (sceneInit_fold r mesh) as [Hheld Hsc]. rewrite Hsc. simpl.
  split; [exact Hheld|]. split; [|split].
  - intros n. rewrite Hheld. unfold gl_held, gl_create. simpl.
    unfold gl_create.
    destruct (reply_program r =? 0)%Z, (reply_vao r =? 0)%Z,
      (reply_vbo r =? 0)%Z; intros Hn;
      repeat (apply elem_of_cons in Hn as [Hn|Hn]; [discriminate|]);
      by apply elem_of_nil in Hn.
  - unfold sceneInit.
    destruct (createAndCompileShader _ _ (reply_vsh r)) as [vsh tv].
    destruct (createAndCompileShader _ _ (reply_fsh r)) as [fsh tf].
    simpl. apply elem_of_app. right. set_solver.
  - unfold sceneInit.
    destruct (createAndCompileShader _ _ (reply_vsh r)) as [vsh tv].
    destruct (createAndCompileShader _ _ (reply_fsh r)) as [fsh tf].
    simpl.
    match goal with
    | |- last (?t ++ ?l) = _ => change l with
        ([glDeleteShader vsh; glDeleteShader fsh;
          glGetUniformLocation (reply_program r) transform (reply_transform r);
          glGetUniformLocation (reply_program r) translation (reply_translation r);
          glGetUniformLocation (reply_program r) color_uniform (reply_color r);
          glGenVertexArrays (reply_vao r); glGenBuffers (reply_vbo r);
          glBindVertexArray (reply_vao r); glBindBuffer (reply_vbo r);
          glBufferData mesh; glVertexAttribPointer 0 member_position;
          glEnableVertexAttribArray 0; glVertexAttribPointer 1 member_color;
          glEnableVertexAttribArray 1; glBindBuffer 0; glBindVertexArray 0]
         ++ [glEnable_GL_CULL_FACE])
    end.
    by rewrite app_assoc, last_snoc.
Qed.

(** X18.  [sceneExit] after [sceneInit] deletes the buffer, the vertex
    array and the program: the calls of the two together leave no OpenGL
    object held, whatever the library answered. *)
Theorem sceneExit_after_sceneInit (r : SceneReplies) (mesh : list Vertex.t) :
  gl_held ((sceneInit r mesh).2 ++ sceneExit (sceneInit r mesh).1) = [].
Proof.
  destruct (sceneInit_fold r mesh) as [Hheld Hsc].
  rewrite gl_held_app, Hheld, Hsc. unfold gl_held, sceneExit. simpl.
  unfold gl_create.
  destruct (reply_program r =? 0)%Z, (reply_vao r =? 0)%Z,
    (reply_vbo r =? 0)%Z;
    repeat (rewrite gl_delete_here || rewrite gl_delete_nil
            || (rewrite gl_delete_skip by discriminate));
    reflexivity.
Qed.

(** ** [proc_map] on integers *)

Lemma as_int_in (x : Z) : in_int x = true → as_int x = Some x.
Proof. intros H. unfold as_int. by rewrite H. Qed.

(** X19.  At [int], with the differences and the output bounds in range:
    [proc_map] sends [istart] to [ostart] and [istop] to [ostop] when the
    two input bounds differ, and is undefined for every value (a division
    by zero) when they are equal. *)
Theorem proc_map_bounds (istart istop ostart ostop : Z) :
  in_int (istop - istart) = true → in_int (ostop - ostart) = true →
  in_int ostart = true → in_int ostop = true →
  (istart = istop → ∀ value, proc_map value istart istop ostart ostop = None) ∧
  (istart ≠ istop →
   proc_map istart istart istop ostart ostop = Some ostart ∧
   proc_map istop istart istop ostart ostop = Some ostop).
Proof.
  intros Hb Hc Ho Ho'. split.
  - intros <- value. unfold proc_map. rewrite Z.sub_diag.
    destruct (as_int (value - istart)); reflexivity.
  - intros Hne. unfold proc_map. split.
    + rewrite Z.sub_diag, (as_int_in 0) by done. simpl.
      rewrite (as_int_in _ Hb). simpl.
      rewrite (proj2 (Z.eqb_neq _ _)) by lia.
      rewrite Z.quot_0_l by lia. rewrite (as_int_in 0) by done. simpl.
      rewrite (as_int_in _ Hc). simpl.
      rewrite Z.mul_0_r, (as_int_in 0) by done. simpl.
      rewrite Z.add_0_r. by apply as_int_in.
    + rewrite (as_int_in _ Hb). simpl.
      rewrite (proj2 (Z.eqb_neq _ _)) by lia.
      rewrite Z.quot_same by lia. rewrite (as_int_in 1) by done. simpl.
      rewrite (as_int_in _ Hc). simpl.
      rewrite Z.mul_1_r, (as_int_in _ Hc). simpl.
      replace (ostart + (ostop - ostart))%Z with ostop by lia.
      by apply as_int_in.
Qed.

Lemma proc_map_bounds_witness :
  in_int (100 - 0) = true ∧ in_int (255 - 0) = true ∧
  in_int 0 = true ∧ in_int 255 = true ∧
  (0%Z = 100%Z → ∀ value, proc_map value 0 100 0 255 = None) ∧
  (0%Z ≠ 100%Z →
   proc_map 0 0 100 0 255 = Some 0%Z ∧ proc_map 100 0 100 0 255 = Some 255%Z).
Proof.
  split; [reflexivity|]. split; [reflexivity|]. split; [reflexivity|].
  split; [reflexivity|].
  exact (proc_map_bounds 0 100 0 255 eq_refl eq_refl eq_refl eq_refl).
Defined.

(** X20.  At [int] the quotient is taken before the product, so nothing is
    interpolated: every value whose distance to [istart] is smaller than the
    distance between the input bounds is sent to [ostart]. *)
Theorem proc_map_inside_gives_ostart (value istart istop ostart ostop : Z) :
  in_int (value - istart) = true → in_int (istop - istart) = true →
  in_int (ostop - ostart) = true → in_int ostart = true →
  (Z.abs (value - istart) < Z.abs (istop - istart))%Z →
  proc_map value istart istop ostart ostop = Some ostart.
Proof.
  intros Ha Hb Hc Ho Hlt. unfold proc_map.
  rewrite (as_int_in _ Ha). simpl. rewrite (as_int_in _ Hb). simpl.
  assert (Hnz : (istop - istart)%Z ≠ 0%Z) by lia.
  rewrite (proj2 (Z.eqb_neq _ _) Hnz).
  rewrite (proj2 (Z.quot_small_iff _ _ Hnz) Hlt).
  rewrite (as_int_in 0) by done. simpl.
  rewrite (as_int_in _ Hc). simpl.
  rewrite Z.mul_0_r, (as_int_in 0) by done. simpl.
  rewrite Z.add_0_r. by apply as_int_in.
Qed.

(** 99 of 100 on the way from 0 to 255 is still 0. *)
Lemma proc_map_inside_gives_ostart_witness :
  in_int (99 - 0) = true ∧ in_int (100 - 0) = true ∧
  in_int (255 - 0) = true ∧ in_int 0 = true ∧
  (Z.abs (99 - 0) < Z.abs (100 - 0))%Z ∧
  proc_map 99 0 100 0 255 = Some 0%Z.
Proof.
  split; [reflexivity|]. split; [reflexivity|]. split; [reflexivity|].
  split; [reflexivity|]. split; [reflexivity|].
  exact (proc_map_inside_gives_ostart 99 0 100 0 255
           eq_refl eq_refl eq_refl eq_refl eq_refl).
Defined.

(** ** The batch of an iteration *)

(** X21.  With 720 vertices, an iteration of the main loop that reaches its
    end has recoloured exactly four vertices: the set holds four indices
    when the selection changed in this iteration, and four more than before
    when it did not. *)
Theorem frame_adds_four
    (rand : nat → N) (fuel : nat) (p : Pad) (g g' : Globals) :
  consistent g → length (sphere g) = 720 → frame rand fuel p g = Ret g' →
  size (changed_indeces g')
  = 4 + (if decide (prev_color g = chosen_color (buttons_state p))
         then size (changed_indeces g) else 0).
Proof.
  intros Hc Hlen Hf.
  by destruct (frame_step _ _ _ _ _ Hc ltac:(lia) Hf)
    as (_ & _ & _ & _ & _ & _ & Hsz).
Qed.

Lemma frame_adds_four_witness :
  consistent (initial mesh_720) ∧
  length (sphere (initial mesh_720)) = 720 ∧
  frame rand_counting 2 (mkPad HidNpadButton_Up 0) (initial mesh_720)
  = Ret after_first_frame ∧
  size (changed_indeces after_first_frame)
  = 4 + (if decide (prev_color (initial mesh_720)
                    = chosen_color (buttons_state (mkPad HidNpadButton_Up 0)))
         then size (changed_indeces (initial mesh_720)) else 0).
Proof.
  assert (Hf : frame rand_counting 2 (mkPad HidNpadButton_Up 0) (initial mesh_720)
               = Ret after_first_frame) by (vm_compute; reflexivity).
  assert (Hlen : length (sphere (initial mesh_720)) = 720)
    by (vm_compute; reflexivity).
  split; [apply initial_consistent|]. split; [exact Hlen|]. split; [exact Hf|].
  exact (frame_adds_four rand_counting 2 (mkPad HidNpadButton_Up 0)
           (initial mesh_720) after_first_frame
           (initial_consistent mesh_720) Hlen Hf).
Defined.
